(** * A Rocq model of [backend/public/patch.py]

    The script patches two static HTML pages by a fixed sequence of
    textual substitutions.  Python text is modelled as a list of Unicode
    code points; [str.replace] and [re.sub] are modelled by one left-to-right
    scanning engine; the two patterns are written in a small regular
    expression syntax with a backtracking matcher. *)

From Stdlib Require Import String Ascii.
From Stdlib Require Import List NArith Arith Lia Bool.
Import ListNotations.

(** ** Text *)

(** A Python [str] is a sequence of code points. *)
Definition char := N.
Definition str := list char.

(** UTF-8 decoding of a literal.  [pending] counts the continuation bytes
    still expected and [acc] holds the bits collected so far. *)
Fixpoint utf8_decode (pending : nat) (acc : N) (s : string) : str :=
  match s with
  | EmptyString => []
  | String a t =>
      let b := N_of_ascii a in
      match pending with
      | O =>
          if (b <? 128)%N then b :: utf8_decode 0 0%N t
          else if (b <? 224)%N then utf8_decode 1 (b - 192)%N t
          else if (b <? 240)%N then utf8_decode 2 (b - 224)%N t
          else utf8_decode 3 (b - 240)%N t
      | S k =>
          let acc' := (acc * 64 + (b - 128))%N in
          match k with
          | O => acc' :: utf8_decode 0 0%N t
          | S _ => utf8_decode k acc' t
          end
      end
  end.

Definition py (s : string) : str := utf8_decode 0 0%N s.

(** The double quote character, and a literal given by the pieces of text
    between its consecutive double quotes. *)
Definition dquote : char := 34%N.

Fixpoint py_quoted (pieces : list string) : str :=
  match pieces with
  | [] => []
  | [p] => py p
  | p :: rest => py p ++ dquote :: py_quoted rest
  end.

Definition eqb_char : char -> char -> bool := N.eqb.

(** [is_prefix p s]: Python's [s.startswith(p)]. *)
Fixpoint is_prefix (p s : str) : bool :=
  match p, s with
  | [], _ => true
  | _ :: _, [] => false
  | a :: p', b :: s' => eqb_char a b && is_prefix p' s'
  end.

(** [str_find old s]: Python's [s.find(old)], with [None] for [-1]. *)
Fixpoint str_find (old s : str) : option nat :=
  match s with
  | [] => if is_prefix old [] then Some 0 else None
  | _ :: t => if is_prefix old s then Some 0 else option_map S (str_find old t)
  end.

(** Number of positions of [s] at which [w] occurs. *)
Fixpoint occurrences (w s : str) : nat :=
  match s with
  | [] => if is_prefix w [] then 1 else 0
  | _ :: t => (if is_prefix w s then 1 else 0) + occurrences w t
  end.

(** Occurrences of [w] in [x ++ y] that start inside [x]. *)
Fixpoint occurrences_from (w x y : str) : nat :=
  match x with
  | [] => 0
  | _ :: x' => (if is_prefix w (x ++ y) then 1 else 0) + occurrences_from w x' y
  end.

(** Two texts agree as far as the shorter one reaches. *)
Definition compat (w v : str) : bool := is_prefix w v || is_prefix v w.

(** ** Substitution by scanning

    [str.replace(old, new)] and [re.sub(pattern, repl, s)] without a count
    both walk the text from left to right: at each position they try to
    match; a match is replaced and the walk resumes where the match ended,
    otherwise the character is copied.  [m s] gives the length of the match
    that starts at the head of [s], if there is one.  An empty match inserts
    the replacement and copies the next character. *)
Section Scan.
Variable m : str -> option nat.
Variable repl : str.

Definition at_end : str :=
  match m [] with Some _ => repl | None => [] end.

Fixpoint scan_from (skip : nat) (s : str) : str :=
  match s with
  | [] => at_end
  | c :: t =>
      match skip with
      | S k => scan_from k t
      | O =>
          match m s with
          | None => c :: scan_from 0 t
          | Some O => repl ++ c :: scan_from 0 t
          | Some (S n) => repl ++ scan_from n t
          end
      end
  end.

Definition scan : str -> str := scan_from 0.

(** The same walk, stopping after the first replacement: the reading
    "only the first occurrence" ([count=1]). *)
Fixpoint scan_first (s : str) : str :=
  match s with
  | [] => at_end
  | c :: t =>
      match m s with
      | None => c :: scan_first t
      | Some n => repl ++ skipn n s
      end
  end.
End Scan.

(** The matcher of a literal. *)
Definition literal (old : str) : str -> option nat :=
  fun s => if is_prefix old s then Some (length old) else None.

(** [str_replace old new s]: Python's [s.replace(old, new)]. *)
Definition str_replace (old new s : str) : str := scan (literal old) new s.

(** [s.replace(old, new, 1)]. *)
Definition str_replace_first (old new s : str) : str :=
  scan_first (literal old) new s.

(** ** The regular expressions of the script *)

(** [\s] on a [str] pattern: the code points for which [str.isspace()]
    holds. *)
Definition is_space (c : char) : bool :=
  ((9 <=? c) && (c <=? 13) || (28 <=? c) && (c <=? 32)
   || (c =? 133) || (c =? 160) || (c =? 5760)
   || (8192 <=? c) && (c <=? 8202)
   || (c =? 8232) || (c =? 8233) || (c =? 8239) || (c =? 8287)
   || (c =? 12288))%N.

(** The pattern syntax used by the script: literal text, [.*?] under
    [re.DOTALL], and [\s*]. *)
Inductive item : Type :=
| Lit (l : str)
| AnyLazy
| SpaceStar.

Definition pattern := list item.

(** Backtracking match of a pattern at the head of the text; the result is
    the length of the match.  [.*?] tries the rest of the pattern before it
    takes one more character, [\s*] takes as much as it can and gives back
    on failure. *)
Fixpoint match_items (p : pattern) : str -> option nat :=
  match p with
  | [] => fun _ => Some 0
  | Lit l :: p' =>
      fun s =>
        if is_prefix l s
        then option_map (Nat.add (length l)) (match_items p' (skipn (length l) s))
        else None
  | AnyLazy :: p' =>
      fix lazy (s : str) : option nat :=
        match match_items p' s with
        | Some n => Some n
        | None =>
            match s with
            | [] => None
            | _ :: t => option_map S (lazy t)
            end
        end
  | SpaceStar :: p' =>
      fix greedy (s : str) : option nat :=
        match s with
        | [] => match_items p' []
        | c :: t =>
            if is_space c
            then match greedy t with
                 | Some n => Some (S n)
                 | None => match_items p' s
                 end
            else match_items p' s
        end
  end.

(** [re_sub p repl s]: [re.sub(p, repl, s, flags=re.DOTALL)] for a
    replacement without backslashes. *)
Definition re_sub (p : pattern) (repl s : str) : str :=
  scan (match_items p) repl s.

(** [re.sub(p, repl, s, count=1, flags=re.DOTALL)]. *)
Definition re_sub_first (p : pattern) (repl s : str) : str :=
  scan_first (match_items p) repl s.

(** ** The constants of the script *)

Definition new_section : str :=
  py_quoted [
"    <div class=";
"card";
" style=";
"text-align: center; border: 1px solid rgba(59, 130, 246, 0.3); background: linear-gradient(180deg, rgba(59,130,246,0.08) 0%, rgba(0,0,0,0.2) 100%);";
">
      <h2>Veien videre</h2>
      <p style=";
"margin-bottom: 24px;";
">Vi jobber kontinuerlig med å forbedre Leksihjelp. Vil du vite mer om våre fremtidsplaner med ny ordbank og smarte anonyme stavekontroller?</p>
      <a href=";
"/fremtidsplaner";
" class=";
"github-link";
" style=";
"display: inline-flex; justify-content: center; background: #3b82f6; border-color: #3b82f6; color: #fff; font-weight: 600;";
">
        <svg viewBox=";
"0 0 24 24";
" width=";
"20";
" height=";
"20";
" fill=";
"none";
" stroke=";
"currentColor";
" stroke-width=";
"2";
" stroke-linecap=";
"round";
" stroke-linejoin=";
"round";
" style=";
"margin-right: 6px;";
"><circle cx=";
"12";
" cy=";
"12";
" r=";
"10";
"/><polyline points=";
"12 6 12 12 16 14";
"/></svg>
        Se våre fremtidsplaner
      </a>
    </div>

    <footer>"
  ]%string.
Definition new_style : str :=
  py_quoted [
"  <style>
    @import url('https://fonts.googleapis.com/css2?family=Inter:wght@400;500;600;700&display=swap');

    :root {
      --bg-color: #0c0c0e;
      --card-bg: rgba(255, 255, 255, 0.03);
      --card-border: rgba(255, 255, 255, 0.08);
      --text-primary: #f3f4f6;
      --text-secondary: #9ca3af;
      --accent: #3b82f6;
      --accent-hover: #2563eb;
      --success: #10b981;
    }

    * {
      margin: 0;
      padding: 0;
      box-sizing: border-box;
    }

    body {
      font-family: 'Inter', -apple-system, BlinkMacSystemFont, 'Segoe UI', Roboto, Oxygen, Ubuntu, sans-serif;
      background-color: var(--bg-color);
      background-image: radial-gradient(circle at top, rgba(59, 130, 246, 0.08) 0%, transparent 50%);
      min-height: 100vh;
      color: var(--text-primary);
      line-height: 1.6;
      overflow-x: hidden;
      -webkit-font-smoothing: antialiased;
    }

    /* ── Layout ── */
    .container {
      position: relative;
      z-index: 1;
      max-width: 820px;
      margin: 0 auto;
      padding: 60px 20px;
    }

    /* ── Header ── */
    header {
      text-align: center;
      margin-bottom: 60px;
      animation: fadeInDown 0.8s ease-out both;
    }

    .logo {
      font-size: 56px;
      margin-bottom: 20px;
      filter: drop-shadow(0 4px 12px rgba(0,0,0,0.5));
    }

    h1 {
      font-size: 3.5rem;
      font-weight: 700;
      color: #fff;
      margin-bottom: 16px;
      letter-spacing: -0.04em;
      line-height: 1.1;
    }

    .tagline {
      font-size: 1.25rem;
      color: var(--text-secondary);
      max-width: 500px;
      margin: 0 auto;
    }

    .back-link {
      display: inline-flex;
      align-items: center;
      gap: 10px;
      color: var(--text-primary);
      text-decoration: none;
      font-size: 0.95rem;
      padding: 10px 20px;
      background: rgba(255, 255, 255, 0.05);
      border: 1px solid var(--card-border);
      border-radius: 20px;
      transition: all 0.2s;
      font-weight: 500;
      margin-top: 32px;
    }

    .back-link:hover {
      background: rgba(255, 255, 255, 0.1);
      transform: translateY(-1px);
    }

    /* ── Glassmorphism cards ── */
    .glass {
      background: var(--card-bg);
      border: 1px solid var(--card-border);
      backdrop-filter: blur(12px);
      border-radius: 16px;
      padding: 32px;
      margin-bottom: 24px;
      box-shadow: 0 4px 24px rgba(0, 0, 0, 0.2);
      transition: transform 0.2s ease, box-shadow 0.2s ease;
    }

    .glass:hover {
      box-shadow: 0 8px 32px rgba(0, 0, 0, 0.3);
      border-color: rgba(255, 255, 255, 0.12);
    }

    /* ── Scroll reveal animation ── */
    .reveal {
      opacity: 0;
      transform: translateY(20px);
      transition: opacity 0.6s ease-out, transform 0.6s ease-out;
    }

    .reveal.visible {
      opacity: 1;
      transform: translateY(0);
    }

    .stagger { opacity: 0; transform: translateY(12px); }
    .reveal.visible .stagger { animation: staggerIn 0.5s ease-out both; }
    .reveal.visible .stagger:nth-child(1) { animation-delay: 0.1s; }
    .reveal.visible .stagger:nth-child(2) { animation-delay: 0.18s; }
    .reveal.visible .stagger:nth-child(3) { animation-delay: 0.26s; }
    .reveal.visible .stagger:nth-child(4) { animation-delay: 0.34s; }
    .reveal.visible .stagger:nth-child(5) { animation-delay: 0.42s; }
    .reveal.visible .stagger:nth-child(6) { animation-delay: 0.50s; }

    @keyframes staggerIn {
      to { opacity: 1; transform: translateY(0); }
    }

    @keyframes fadeInDown {
      from { opacity: 0; transform: translateY(-20px); }
      to { opacity: 1; transform: translateY(0); }
    }

    /* ── Typography ── */
    h2 {
      font-size: 1.5rem;
      font-weight: 600;
      margin-bottom: 24px;
      letter-spacing: -0.02em;
      color: #fff;
      display: flex;
      align-items: center;
      gap: 8px;
    }

    h3 {
      font-size: 1.1rem;
      margin-bottom: 12px;
      color: #fff;
      font-weight: 500;
    }

    p {
      color: var(--text-secondary);
      margin-bottom: 16px;
    }

    /* ── Phase labels ── */
    .phase-label {
      display: inline-block;
      font-size: 0.75rem;
      font-weight: 600;
      padding: 6px 14px;
      border-radius: 20px;
      margin-bottom: 24px;
      letter-spacing: 0.05em;
      text-transform: uppercase;
      background: rgba(255, 255, 255, 0.05);
      border: 1px solid var(--card-border);
      color: var(--text-secondary);
    }

    /* ── Language grid ── */
    .lang-grid {
      display: grid;
      grid-template-columns: repeat(3, 1fr);
      gap: 16px;
      margin: 32px 0;
    }

    .lang-card {
      background: rgba(0, 0, 0, 0.2);
      padding: 24px 16px;
      border-radius: 12px;
      text-align: center;
      border: 1px solid var(--card-border);
      transition: all 0.2s;
    }

    .lang-card:hover {
      background: rgba(255, 255, 255, 0.05);
      transform: translateY(-2px);
    }

    .lang-card .flag {
      font-size: 2.2rem;
      margin-bottom: 12px;
      filter: drop-shadow(0 2px 8px rgba(0,0,0,0.2));
    }

    .lang-card .name {
      font-weight: 500;
      font-size: 0.95rem;
      color: var(--text-primary);
    }

    .lang-card .code {
      font-size: 0.75rem;
      color: var(--text-secondary);
      margin-top: 4px;
      font-family: 'SF Mono', Menlo, Monaco, Consolas, monospace;
    }

    /* ── List items ── */
    ul {
      list-style: none;
      padding: 0;
    }

    li {
      padding: 8px 0;
      position: relative;
      color: var(--text-secondary);
      font-size: 0.95rem;
    }

    .roadmap-item {
      padding-left: 28px;
    }

    .roadmap-item::before {
      content: ";
"✓";
";
      position: absolute;
      left: 0;
      color: var(--success);
      font-weight: bold;
      font-size: 1.1rem;
    }

    /* ── Highlight / info boxes ── */
    .highlight-box, .privacy-box {
      background: rgba(0, 0, 0, 0.2);
      border: 1px solid var(--card-border);
      border-radius: 12px;
      padding: 24px;
      margin: 32px 0;
      position: relative;
    }

    .highlight-box h3, .privacy-box h3 {
      color: #fff;
    }

    /* ── Diagram ── */
    .diagram {
      background: rgba(0, 0, 0, 0.3);
      border-radius: 12px;
      padding: 24px;
      margin: 32px 0;
      font-family: 'SF Mono', Menlo, Monaco, Consolas, monospace;
      font-size: 0.85rem;
      line-height: 1.8;
      color: var(--text-secondary);
      overflow-x: auto;
      white-space: pre;
      border: 1px solid var(--card-border);
    }

    .diagram .keyword {
      color: var(--accent);
    }

    .diagram .value {
      color: var(--success);
    }

    .diagram .comment {
      color: rgba(255, 255, 255, 0.3);
    }

    /* ── Vision card accent ── */
    .vision-card {
      position: relative;
      overflow: hidden;
      border: 1px solid rgba(59, 130, 246, 0.3);
      background: linear-gradient(180deg, rgba(59,130,246,0.08) 0%, rgba(0,0,0,0.2) 100%);
    }

    /* ── Footer ── */
    footer {
      text-align: center;
      margin-top: 60px;
      padding: 32px 20px;
      border-top: 1px solid var(--card-border);
      color: var(--text-secondary);
      font-size: 0.9rem;
      animation: fadeInDown 0.8s ease-out 0.3s both;
    }

    footer a {
      color: var(--text-primary);
      text-decoration: none;
      transition: color 0.2s;
    }

    footer a:hover {
      color: var(--accent);
    }

    .footer-legal {
      margin-top: 16px;
      font-size: 0.8rem;
      color: rgba(255, 255, 255, 0.3);
      line-height: 1.6;
      max-width: 600px;
      margin-left: auto;
      margin-right: auto;
    }

    /* ── Responsive ── */
    @media (max-width: 768px) {
      h1 {
        font-size: 2.5rem;
      }
      .container {
        padding: 40px 16px;
      }
      .lang-grid {
        grid-template-columns: repeat(2, 1fr);
        gap: 12px;
      }
      .lang-card {
        padding: 16px 12px;
      }
      .diagram {
        font-size: 0.75rem;
        padding: 16px;
      }
    }
    
    @media (max-width: 480px) {
      .lang-grid {
        grid-template-columns: 1fr;
      }
    }
  </style>"
  ]%string.

Definition footer_marker : str := py "    <footer>".

(** The tag the marker ends with. *)
Definition footer_tag : str := py "<footer>".

Definition style_open : str := py "<style>".
Definition style_close : str := py "</style>".

Definition style_pattern : pattern :=
  [Lit style_open; AnyLazy; Lit style_close].

Definition bg_elements_pattern : pattern :=
  [Lit (py "<!-- Animated background -->"); SpaceStar;
   Lit (py_quoted ["<div class="; "bg-gradient"; "></div>"]); SpaceStar;
   Lit (py_quoted ["<div class="; "bg-orb bg-orb-1"; "></div>"]); SpaceStar;
   Lit (py_quoted ["<div class="; "bg-orb bg-orb-2"; "></div>"]); SpaceStar;
   Lit (py_quoted ["<div class="; "bg-orb bg-orb-3"; "></div>"])]%string.

Definition link_style_old : str :=
  py_quoted ["style=";
    "color:#a78bfa;text-decoration:none;border-bottom:1px solid rgba(167,139,250,0.3);transition:border-color 0.2s;"]%string
  ++ [dquote].

Definition link_style_new : str :=
  py_quoted ["style=";
    "color:#3b82f6;text-decoration:none;border-bottom:1px solid rgba(59,130,246,0.3);transition:border-color 0.2s;"]%string
  ++ [dquote].

Definition para_old : str :=
  py_quoted ["<p style="; "margin-bottom:0;"; ">"]%string.

Definition para_new : str :=
  py_quoted ["<p style="; "margin-bottom:0;color:var(--text-secondary);"; ">"]%string.

(** ** The steps of the script *)

(** Line 19: the footer insertion on [index.html]. *)
Definition footer_step (index_content : str) : str :=
  str_replace footer_marker new_section index_content.

(** Line 379: the stylesheet replacement. *)
Definition style_step (c : str) : str := re_sub style_pattern new_style c.

(** Line 383: removal of the animated background. *)
Definition bg_step (c : str) : str := re_sub bg_elements_pattern [] c.

(** Lines 387-389: the link colour. *)
Definition link_step (c : str) : str :=
  str_replace link_style_old link_style_new c.

(** Line 390: the paragraph colour. *)
Definition para_step (c : str) : str := str_replace para_old para_new c.

Definition patch_index (index_content : str) : str :=
  footer_step index_content.

Definition patch_fremtidsplaner (fremtidsplaner_content : str) : str :=
  para_step (link_step (bg_step (style_step fremtidsplaner_content))).

(** Both files at once. *)
Definition patch_contents (ab : str * str) : str * str :=
  (patch_index (fst ab), patch_fremtidsplaner (snd ab)).

(** The block that ends up in front of the marker: [new_section] without
    the marker it ends with. *)
Definition promo_block : str :=
  firstn (length new_section - length footer_marker) new_section.

(** [re.search]: start and length of the leftmost match. *)
Fixpoint re_search (m : str -> option nat) (s : str) : option (nat * nat) :=
  match s with
  | [] => match m [] with Some n => Some (0, n) | None => None end
  | _ :: t =>
      match m s with
      | Some n => Some (0, n)
      | None => option_map (fun '(i, n) => (S i, n)) (re_search m t)
      end
  end.

(** The first [<style>] tag and the distance from its end to the first
    [</style>] after it. *)
Definition first_style_pair (c : str) : option (nat * nat) :=
  match str_find style_open c with
  | None => None
  | Some i =>
      match str_find style_close (skipn (i + length style_open) c) with
      | None => None
      | Some j => Some (i, j)
      end
  end.

(** The texts a pattern denotes. *)
Fixpoint lang (p : pattern) (x : str) : Prop :=
  match p with
  | [] => x = []
  | Lit l :: p' => exists y, x = l ++ y /\ lang p' y
  | AnyLazy :: p' => exists u y, x = u ++ y /\ lang p' y
  | SpaceStar :: p' =>
      exists u y, x = u ++ y /\ forallb is_space u = true /\ lang p' y
  end.

(** ** The script as a program on the file system *)

Definition path := string.

Definition index_path : path :=
  "/Users/geirforbord/Papertek/leksihjelp/backend/public/index.html"%string.

Definition fremtidsplaner_path : path :=
  "/Users/geirforbord/Papertek/leksihjelp/backend/public/fremtidsplaner.html"%string.

(** The state the script runs in.  [files w p] is the text of the file at
    [p] ([None]: there is no such file, or it is not UTF-8); [readable w p]
    and [writable w p] tell whether [open(p, 'r')] and [open(p, 'w')] are
    permitted; [printed] is what has been written to standard output, one
    entry per line. *)
Record world : Type := mkWorld {
  files : path -> option str;
  readable : path -> bool;
  writable : path -> bool;
  printed : list str
}.

(** A computation either returns a value or raises, and leaves a world. *)
Definition io (A : Type) : Type := world -> option A * world.

Definition ret {A : Type} (a : A) : io A := fun w => (Some a, w).

Definition bind {A B : Type} (c : io A) (k : A -> io B) : io B :=
  fun w =>
    match c w with
    | (Some a, w') => k a w'
    | (None, w') => (None, w')
    end.

Notation "x <- c ;; k" := (bind c (fun x => k))
  (at level 61, c at next level, right associativity).
Notation "c ;;; k" := (bind c (fun _ => k))
  (at level 61, right associativity).

(** Text mode reads with universal newlines: ["\r\n"] and ["\r"] arrive as
    ["\n"]. *)
Fixpoint universal_newlines (s : str) : str :=
  match s with
  | [] => []
  | c :: t =>
      if (c =? 13)%N
      then 10%N :: match t with
                   | [] => []
                   | d :: t' =>
                       if (d =? 10)%N then universal_newlines t'
                       else universal_newlines t
                   end
      else c :: universal_newlines t
  end.

(** [open(p, 'r', encoding='utf-8')] and [f.read()]: raises when the file
    may not be opened, is missing or cannot be decoded. *)
Definition read_text (p : path) : io str :=
  fun w =>
    if readable w p
    then match files w p with
         | Some c => (Some (universal_newlines c), w)
         | None => (None, w)
         end
    else (None, w).

(** [open(p, 'w', encoding='utf-8')] and [f.write(c)]: raises, leaving the
    file as it was, when the file may not be opened for writing; otherwise
    the file holds [c] afterwards. *)
Definition write_text (p : path) (c : str) : io unit :=
  fun w =>
    if writable w p
    then (Some tt,
          mkWorld (fun q => if String.eqb q p then Some c else files w q)
                  (readable w) (writable w) (printed w))
    else (None, w).

Definition print (line : str) : io unit :=
  fun w =>
    (Some tt,
     mkWorld (files w) (readable w) (writable w) (printed w ++ [line])).

(** The script, top to bottom. *)
Definition script : io unit :=
  index_content <- read_text index_path ;;
  write_text index_path (patch_index index_content) ;;;
  fremtidsplaner_content <- read_text fremtidsplaner_path ;;
  write_text fremtidsplaner_path (patch_fremtidsplaner fremtidsplaner_content) ;;;
  print (py "Done patching.").

(** ** Decidable side conditions on the constants *)

(** No occurrence of [w] can begin before [y] and run into it: no proper,
    non-empty suffix of [w] agrees with [y]. *)
Definition no_overhang (w y : str) : bool :=
  forallb (fun k => negb (compat (skipn k w) y)) (seq 1 (length w - 1)).

(** No occurrence of [w] begins inside [x] when [y] follows [x]. *)
Definition no_start_in (w x y : str) : bool :=
  forallb (fun j => negb (compat w (skipn j x ++ y))) (seq 0 (length x)).

(** ** Sample inputs *)

Definition two_markers : str := py "    <footer>    <footer>".

Definition minimal_page : str :=
  py "<html><body><footer>x</footer></body></html>".

Definition indented_page : str :=
  py "<html><body>    <footer>x</footer></body></html>".

Definition two_styles : str := py "<style>a</style><style>b</style>".

Definition plain_page : str := py "<html><body><p>Hei</p></body></html>".

(** Every file may be opened, for reading and for writing. *)
Definition all_allowed : path -> bool := fun _ => true.

Definition world_one : world :=
  mkWorld (fun q => if String.eqb q index_path then Some indented_page
                    else if String.eqb q fremtidsplaner_path then Some two_styles
                    else None)
          all_allowed all_allowed [].

Definition world_two : world :=
  mkWorld (fun q => if String.eqb q index_path then Some indented_page
                    else if String.eqb q fremtidsplaner_path then Some two_styles
                    else Some plain_page)
          all_allowed all_allowed [py "earlier output"].

(** The first sample world with [index.html] write-protected. *)
Definition world_read_only : world :=
  mkWorld (files world_one) all_allowed
          (fun q => negb (String.eqb q index_path)) [].

(** ** Further notions used in the statements *)

(** Carriage return. *)
Definition cr : char := 13%N.

(** The comment the background block starts with. *)
Definition bg_comment : str := py "<!-- Animated background -->".

(** What stands between the tags of the replacement stylesheet. *)
Definition style_body : str :=
  skipn (2 + length style_open)
        (firstn (length new_style - length style_close) new_style).

(** In such a pattern nothing is left to choice: there is no [.*?], and
    every [\s*] is followed by a literal that starts with a character
    [\s] does not match. *)
Fixpoint unambiguous (p : pattern) : bool :=
  match p with
  | [] => true
  | Lit _ :: p' => unambiguous p'
  | AnyLazy :: _ => false
  | SpaceStar :: p' =>
      match p' with
      | Lit (c :: _) :: _ => negb (is_space c) && unambiguous p'
      | _ => false
      end
  end.

(** Running a step [n] times. *)
Fixpoint times (n : nat) (f : str -> str) (s : str) : str :=
  match n with
  | O => s
  | S k => f (times k f s)
  end.

(** The four elements that follow the comment in the background block. *)
Definition bg_gradient : str :=
  py_quoted ["<div class="; "bg-gradient"; "></div>"]%string.

Definition bg_orb_1 : str :=
  py_quoted ["<div class="; "bg-orb bg-orb-1"; "></div>"]%string.

Definition bg_orb_2 : str :=
  py_quoted ["<div class="; "bg-orb bg-orb-2"; "></div>"]%string.

Definition bg_orb_3 : str :=
  py_quoted ["<div class="; "bg-orb bg-orb-3"; "></div>"]%string.

(** A background block between its four gaps. *)
Definition bg_block (ws1 ws2 ws3 ws4 : str) : str :=
  bg_comment ++ ws1 ++ bg_gradient ++ ws2 ++ bg_orb_1 ++ ws3 ++ bg_orb_2
  ++ ws4 ++ bg_orb_3.

(** Further sample worlds: only [index.html] exists; nothing exists. *)
Definition world_index_only : world :=
  mkWorld (fun q => if String.eqb q index_path then Some indented_page
                    else None)
          all_allowed all_allowed [].


(** What reading the file at [p] gives, and whether the script can both
    read and rewrite it. *)
Definition read_result (w : world) (p : path) : option str :=
  if readable w p then option_map universal_newlines (files w p) else None.

Definition can_patch (w : world) (p : path) : bool :=
  match read_result w p with
  | Some _ => writable w p
  | None => false
  end.

Definition other_path : path := "/tmp/notes.txt"%string.

Definition done_line : str := py "Done patching.".

(** * Properties *)

(** ** Prefixes *)

Lemma eqb_char_true (a b : char) : eqb_char a b = true -> a = b.
Proof. apply N.eqb_eq. Qed.

Lemma eqb_char_refl (a : char) : eqb_char a a = true.
Proof. apply N.eqb_refl. Qed.

Lemma is_prefix_app (p r : str) : is_prefix p (p ++ r) = true.
Proof.
  induction p as [|a p IH]; simpl; [reflexivity|].
  now rewrite eqb_char_refl.
Qed.

Lemma is_prefix_inv (p s : str) :
  is_prefix p s = true -> s = p ++ skipn (length p) s.
Proof.
  revert s; induction p as [|a p IH]; intros [|b s]; simpl; intro H;
    try reflexivity; try discriminate.
  apply andb_true_iff in H as [Hab Hps].
  apply eqb_char_true in Hab; subst b.
  now rewrite <- IH.
Qed.

Lemma is_prefix_nil (p : str) : is_prefix p [] = true -> p = [].
Proof. destruct p; [reflexivity | discriminate]. Qed.

Lemma is_prefix_length (p s : str) :
  is_prefix p s = true -> length p <= length s.
Proof.
  intro H; apply is_prefix_inv in H; rewrite H, length_app; lia.
Qed.

(** A prefix of [a ++ y] lies inside [a], or covers [a] and goes on in [y]. *)
Lemma is_prefix_split (w a y : str) :
  is_prefix w (a ++ y) = true ->
  is_prefix w a = true \/
  (length a < length w /\ is_prefix a w = true /\
   is_prefix (skipn (length a) w) y = true).
Proof.
  revert a; induction w as [|c w IH]; intros a H; [now left|].
  destruct a as [|d a]; simpl in *.
  - right; repeat split; [lia | exact H].
  - apply andb_true_iff in H as [Hcd H].
    destruct (IH a H) as [Hin | (Hlen & Haw & Hy)].
    + left; now rewrite Hcd.
    + right; repeat split; [lia | | exact Hy].
      apply eqb_char_true in Hcd; subst d.
      now rewrite eqb_char_refl.
Qed.

Lemma is_prefix_weaken (w a y : str) :
  is_prefix w a = true -> is_prefix w (a ++ y) = true.
Proof.
  intro H; apply is_prefix_inv in H; rewrite H, <- app_assoc.
  apply is_prefix_app.
Qed.

Lemma is_prefix_app_nil_iff (w a y : str) :
  (forall k, 1 <= k < length w -> is_prefix (skipn k w) y = false) ->
  a <> [] ->
  is_prefix w (a ++ y) = is_prefix w a.
Proof.
  intros Hy Ha.
  destruct (is_prefix w a) eqn:E.
  - now apply is_prefix_weaken.
  - destruct (is_prefix w (a ++ y)) eqn:E'; [|reflexivity].
    apply is_prefix_split in E' as [E' | (Hlen & _ & E')]; [congruence|].
    rewrite Hy in E'; [discriminate|].
    destruct a; [congruence | simpl; simpl in Hlen; lia].
Qed.

Lemma is_prefix_compat (w v y : str) :
  is_prefix w (v ++ y) = true -> compat w v = true.
Proof.
  intro H; unfold compat.
  apply is_prefix_split in H as [H | (_ & H & _)]; rewrite H;
    [reflexivity | apply orb_true_r].
Qed.

(** ** The side conditions *)

Lemma no_overhang_spec (w y z : str) (k : nat) :
  no_overhang w y = true -> 1 <= k < length w ->
  is_prefix (skipn k w) (y ++ z) = false.
Proof.
  unfold no_overhang; intros H Hk.
  rewrite forallb_forall in H.
  assert (Hin : In k (seq 1 (length w - 1))) by (apply in_seq; lia).
  apply H, negb_true_iff in Hin.
  destruct (is_prefix (skipn k w) (y ++ z)) eqn:E; [|reflexivity].
  apply is_prefix_compat in E; congruence.
Qed.

Lemma occurrences_from_none (w x t : str) :
  (forall j, j < length x -> is_prefix w (skipn j x ++ t) = false) ->
  occurrences_from w x t = 0.
Proof.
  induction x as [|c x IH]; intro H; simpl; [reflexivity|].
  assert (H0 : is_prefix w (c :: x ++ t) = false)
    by (apply (H 0); simpl; lia).
  rewrite H0; simpl.
  apply IH; intros j Hj; apply (H (S j)); simpl; lia.
Qed.

Lemma no_start_in_spec (w x y z : str) :
  no_start_in w x y = true -> occurrences_from w x (y ++ z) = 0.
Proof.
  unfold no_start_in; intro H.
  rewrite forallb_forall in H.
  apply occurrences_from_none; intros j Hj.
  assert (Hin : In j (seq 0 (length x))) by (apply in_seq; lia).
  apply H, negb_true_iff in Hin.
  destruct (is_prefix w (skipn j x ++ y ++ z)) eqn:E; [|reflexivity].
  rewrite app_assoc in E; apply is_prefix_compat in E; congruence.
Qed.

(** ** Counting occurrences *)

Lemma occurrences_app (w x y : str) :
  occurrences w (x ++ y) = occurrences_from w x y + occurrences w y.
Proof.
  induction x as [|c x IH]; simpl; [reflexivity|].
  rewrite IH; lia.
Qed.

Lemma occurrences_from_inert (w x y : str) :
  (forall k, 1 <= k < length w -> is_prefix (skipn k w) y = false) ->
  occurrences_from w x y = occurrences_from w x [].
Proof.
  intro Hy; induction x as [|c x IH]; simpl; [reflexivity|].
  rewrite IH; f_equal.
  change (c :: x ++ y) with ((c :: x) ++ y).
  change (c :: x ++ []) with ((c :: x) ++ []).
  rewrite (is_prefix_app_nil_iff w (c :: x) y Hy) by discriminate.
  now rewrite app_nil_r.
Qed.

(** ** The scanning engine *)

Section ScanFacts.
Variable m : str -> option nat.
Variable repl : str.

Lemma scan_from_skipn (k : nat) (s : str) :
  scan_from m repl k s = scan m repl (skipn k s).
Proof.
  revert k; induction s as [|c t IH]; intros [|k]; try reflexivity.
  simpl; apply IH.
Qed.

Lemma scan_cons_none (c : char) (t : str) :
  m (c :: t) = None -> scan m repl (c :: t) = c :: scan m repl t.
Proof. intro H; unfold scan; simpl; now rewrite H. Qed.

Lemma scan_cons_some (c : char) (t : str) (n : nat) :
  m (c :: t) = Some (S n) ->
  scan m repl (c :: t) = repl ++ scan m repl (skipn (S n) (c :: t)).
Proof.
  intro H; unfold scan at 1; simpl; rewrite H.
  now rewrite scan_from_skipn.
Qed.

Lemma scan_absent (s : str) :
  (forall i, m (skipn i s) = None) -> scan m repl s = s.
Proof.
  induction s as [|c t IH]; intro H.
  - assert (H0 := H 0); simpl in H0.
    unfold scan; simpl; unfold at_end.
    now rewrite H0.
  - rewrite scan_cons_none by apply (H 0).
    f_equal; apply IH; intro i; apply (H (S i)).
Qed.

Lemma re_search_none (s : str) :
  re_search m s = None -> forall i, m (skipn i s) = None.
Proof.
  induction s as [|c t IH]; simpl; intros H i.
  - rewrite skipn_nil. destruct (m []); [discriminate | reflexivity].
  - destruct (m (c :: t)) eqn:E; [discriminate|].
    destruct (re_search m t) as [[j n]|] eqn:E'; [discriminate|].
    destruct i as [|i]; [exact E | apply IH; reflexivity].
Qed.

Lemma re_search_none_intro (s : str) :
  (forall i, m (skipn i s) = None) -> re_search m s = None.
Proof.
  induction s as [|c t IH]; simpl; intro H.
  - assert (H0 := H 0); simpl in H0; now rewrite H0.
  - assert (H0 := H 0); simpl in H0; rewrite H0.
    rewrite IH; [reflexivity|].
    intro i; apply (H (S i)).
Qed.

(** The walk replaces the leftmost match and goes on behind it. *)
Lemma scan_search (s : str) :
  (forall t n, m t = Some n -> 0 < n <= length t) ->
  scan m repl s =
  match re_search m s with
  | None => s
  | Some (i, n) => firstn i s ++ repl ++ scan m repl (skipn (i + n) s)
  end.
Proof.
  intro Hpos; induction s as [|c t IH].
  - unfold scan; simpl; unfold at_end.
    destruct (m []) as [n|] eqn:E; [|reflexivity].
    apply Hpos in E; simpl in E; lia.
  - simpl re_search.
    destruct (m (c :: t)) as [[|n]|] eqn:E.
    + apply Hpos in E; lia.
    + now rewrite (scan_cons_some c t n E).
    + rewrite (scan_cons_none c t E), IH.
      destruct (re_search m t) as [[i n]|]; reflexivity.
Qed.
End ScanFacts.

(** ** [str.replace] *)

Lemma skipn_length_app (p r : str) : skipn (length p) (p ++ r) = r.
Proof. induction p; simpl; auto. Qed.

Lemma literal_fits (old : str) :
  old <> [] -> forall t n, literal old t = Some n -> 0 < n <= length t.
Proof.
  intros Hold t n; unfold literal.
  destruct (is_prefix old t) eqn:E; [|discriminate].
  intro H; injection H as <-.
  apply is_prefix_length in E.
  destruct old; [congruence | simpl in *; lia].
Qed.

Section Replace.
Variables old new : str.
Hypothesis old_nonempty : old <> [].

Lemma str_replace_nil : str_replace old new [] = [].
Proof.
  unfold str_replace, scan; simpl; unfold at_end, literal.
  destruct (is_prefix old []) eqn:E; [|reflexivity].
  now apply is_prefix_nil in E.
Qed.

Lemma str_replace_match (rest : str) :
  str_replace old new (old ++ rest) = new ++ str_replace old new rest.
Proof.
  unfold str_replace.
  destruct old as [|a o] eqn:Eo; [congruence|].
  rewrite <- Eo.
  assert (E : literal old (a :: o ++ rest) = Some (S (length o))).
  { unfold literal. change (a :: o ++ rest) with ((a :: o) ++ rest).
    rewrite <- Eo, is_prefix_app, Eo; reflexivity. }
  rewrite Eo at 2; simpl app.
  rewrite (scan_cons_some _ _ _ _ _ E).
  now rewrite <- (skipn_length_app o rest) at 2.
Qed.

Lemma str_replace_skip (c : char) (t : str) :
  is_prefix old (c :: t) = false ->
  str_replace old new (c :: t) = c :: str_replace old new t.
Proof.
  intro H; unfold str_replace; apply scan_cons_none.
  unfold literal; now rewrite H.
Qed.

(** Induction along the walk of [str.replace]. *)
Lemma replace_ind (P : str -> Prop) :
  P [] ->
  (forall rest, P rest -> P (old ++ rest)) ->
  (forall c t, is_prefix old (c :: t) = false -> P t -> P (c :: t)) ->
  forall s, P s.
Proof.
  intros Hnil Hmatch Hskip s.
  remember (length s) as n eqn:Hn.
  revert s Hn; induction n as [n IH] using lt_wf_ind; intros s Hn.
  destruct s as [|c t]; [exact Hnil|].
  destruct (is_prefix old (c :: t)) eqn:E.
  - apply is_prefix_inv in E; rewrite E.
    apply Hmatch, (IH (length (skipn (length old) (c :: t)))); [|reflexivity].
    rewrite Hn, length_skipn.
    destruct old; [congruence | simpl; lia].
  - apply Hskip; [exact E|].
    apply (IH (length t)); [subst n; simpl; lia | reflexivity].
Qed.

Lemma str_replace_absent (s : str) :
  occurrences old s = 0 -> str_replace old new s = s.
Proof.
  induction s as [|c t IH]; intro H; [apply str_replace_nil|].
  simpl in H.
  destruct (is_prefix old (c :: t)) eqn:E; [discriminate|].
  rewrite str_replace_skip by exact E.
  f_equal; apply IH; simpl in H; exact H.
Qed.

(** The first occurrence is replaced and the walk goes on behind it. *)
Lemma str_replace_find (s : str) :
  str_replace old new s =
  match str_find old s with
  | None => s
  | Some i =>
      firstn i s ++ new ++ str_replace old new (skipn (i + length old) s)
  end.
Proof.
  induction s as [|c t IH].
  - rewrite str_replace_nil; simpl.
    destruct (is_prefix old []) eqn:E; [|reflexivity].
    now apply is_prefix_nil in E.
  - simpl str_find.
    destruct (is_prefix old (c :: t)) eqn:E.
    + simpl firstn; simpl Nat.add.
      apply is_prefix_inv in E; rewrite E at 1.
      apply str_replace_match.
    + rewrite str_replace_skip by exact E.
      rewrite IH.
      destruct (str_find old t) as [i|]; reflexivity.
Qed.

(** *** Every occurrence is replaced, wherever it stands *)

Hypothesis old_unbordered : no_overhang old old = true.

Lemma str_replace_app_old (x y : str) :
  str_replace old new (x ++ old ++ y) =
  str_replace old new x ++ new ++ str_replace old new y.
Proof.
  induction x as [| rest IH | c t E IH] using replace_ind.
  - simpl; rewrite str_replace_nil; apply str_replace_match.
  - rewrite <- app_assoc, !str_replace_match, IH.
    now rewrite <- app_assoc.
  - rewrite (str_replace_skip c t E); simpl app.
    rewrite str_replace_skip; [now rewrite IH|].
    destruct (is_prefix old (c :: t ++ old ++ y)) eqn:E'; [|reflexivity].
    change (c :: t ++ old ++ y) with ((c :: t) ++ old ++ y) in E'.
    apply is_prefix_split in E' as [E' | (Hlen & _ & E')]; [congruence|].
    rewrite no_overhang_spec in E'; [discriminate | assumption |].
    simpl; simpl in Hlen; lia.
Qed.

(** *** No occurrence is left behind *)

Hypothesis new_closed_left : no_overhang old new = true.
Hypothesis new_closed_in : no_start_in old new [] = true.

Lemma str_replace_no_new_prefix (s a : str) :
  a <> [] ->
  is_prefix old (a ++ str_replace old new s) = true ->
  is_prefix old (a ++ s) = true.
Proof.
  revert a; induction s as [| rest IH | c t E IH] using replace_ind;
    intros a Ha H.
  - now rewrite str_replace_nil in H.
  - rewrite str_replace_match in H.
    apply is_prefix_split in H as [H | (Hlen & _ & H)].
    + now apply is_prefix_weaken.
    + rewrite no_overhang_spec in H; [discriminate | assumption |].
      destruct a; [congruence | simpl; simpl in Hlen; lia].
  - rewrite (str_replace_skip c t E) in H.
    change (a ++ c :: str_replace old new t)
      with (a ++ [c] ++ str_replace old new t) in H.
    rewrite app_assoc in H; apply IH in H.
    + now rewrite <- app_assoc in H.
    + now destruct a.
Qed.

Lemma str_replace_none_left (s : str) :
  occurrences old (str_replace old new s) = 0.
Proof.
  induction s as [| rest IH | c t E IH] using replace_ind.
  - rewrite str_replace_nil; simpl.
    destruct (is_prefix old []) eqn:E; [|reflexivity].
    now apply is_prefix_nil in E.
  - rewrite str_replace_match, occurrences_app, IH.
    rewrite <- (app_nil_l (str_replace old new rest)).
    now rewrite no_start_in_spec.
  - rewrite (str_replace_skip c t E); simpl; rewrite IH.
    destruct (is_prefix old (c :: str_replace old new t)) eqn:E';
      [|reflexivity].
    apply (str_replace_no_new_prefix t [c]) in E'; [|discriminate].
    simpl in E'; congruence.
Qed.

Lemma str_replace_idempotent (s : str) :
  str_replace old new (str_replace old new s) = str_replace old new s.
Proof. apply str_replace_absent, str_replace_none_left. Qed.
End Replace.

(** *** Inserting a block in front of every occurrence

    When the replacement is [blk ++ old], [str.replace] inserts [blk] in
    front of every occurrence it finds.  The number of occurrences of a
    word [w] stays the same when no occurrence of [w] can touch [blk]. *)
Section Insert.
Variables w old blk : str.
Hypothesis old_nonempty : old <> [].
Hypothesis blk_closed_left : no_overhang w blk = true.
Hypothesis old_closed_left : no_overhang w old = true.
Hypothesis blk_closed_in : no_start_in w blk old = true.

Lemma occurrences_insert (a z : str) :
  occurrences w (a ++ blk ++ old ++ z) = occurrences w (a ++ old ++ z).
Proof.
  rewrite !occurrences_app.
  rewrite (no_start_in_spec w blk old z blk_closed_in).
  rewrite (occurrences_from_inert w a (blk ++ old ++ z)).
  - rewrite (occurrences_from_inert w a (old ++ z)); [lia|].
    intros k Hk; now apply no_overhang_spec.
  - intros k Hk; now apply no_overhang_spec.
Qed.

Lemma str_replace_occurrences_ctx (s a : str) :
  occurrences w (a ++ str_replace old (blk ++ old) s) =
  occurrences w (a ++ s).
Proof.
  revert a;
    induction s as [| rest IH | c t E IH] using (replace_ind old old_nonempty);
    intro a.
  - now rewrite str_replace_nil.
  - rewrite str_replace_match by assumption.
    rewrite <- !app_assoc, occurrences_insert.
    rewrite (app_assoc a old), IH.
    now rewrite <- app_assoc.
  - rewrite str_replace_skip by assumption.
    change (a ++ c :: str_replace old (blk ++ old) t)
      with (a ++ [c] ++ str_replace old (blk ++ old) t).
    rewrite app_assoc, IH.
    now rewrite <- app_assoc.
Qed.

Lemma str_replace_occurrences (s : str) :
  occurrences w (str_replace old (blk ++ old) s) = occurrences w s.
Proof. apply (str_replace_occurrences_ctx s []). Qed.
End Insert.

(** ** [str.find] *)

Lemma str_find_none (l s : str) :
  str_find l s = None -> forall i, is_prefix l (skipn i s) = false.
Proof.
  induction s as [|c t IH]; simpl; intros H i.
  - rewrite skipn_nil. destruct (is_prefix l []); [discriminate | reflexivity].
  - destruct (is_prefix l (c :: t)) eqn:E; [discriminate|].
    destruct (str_find l t) eqn:E'; [discriminate|].
    destruct i as [|i]; [exact E | apply IH; reflexivity].
Qed.

Lemma str_find_none_intro (l s : str) :
  (forall i, is_prefix l (skipn i s) = false) -> str_find l s = None.
Proof.
  induction s as [|c t IH]; simpl; intro H.
  - assert (H0 := H 0); simpl in H0; now rewrite H0.
  - assert (H0 := H 0); simpl in H0; rewrite H0.
    rewrite IH; [reflexivity|].
    intro i; apply (H (S i)).
Qed.

Lemma str_find_skipn_none (l s : str) (k : nat) :
  str_find l s = None -> str_find l (skipn k s) = None.
Proof.
  intro H; apply str_find_none_intro; intro i.
  rewrite skipn_skipn; now apply str_find_none.
Qed.

Lemma str_find_some (l s : str) (i : nat) :
  str_find l s = Some i ->
  s = firstn i s ++ l ++ skipn (i + length l) s.
Proof.
  revert i; induction s as [|c t IH]; simpl; intros i H.
  - destruct (is_prefix l []) eqn:E; [|discriminate].
    injection H as <-; apply is_prefix_nil in E; now subst l.
  - destruct (is_prefix l (c :: t)) eqn:E.
    + injection H as <-; simpl; now apply is_prefix_inv.
    + destruct (str_find l t) as [j|]; [|discriminate].
      injection H as <-; simpl; f_equal; now apply IH.
Qed.

Lemma str_find_occurrences (l s : str) :
  str_find l s = None -> occurrences l s = 0.
Proof.
  induction s as [|c t IH]; simpl.
  - now destruct (is_prefix l []).
  - destruct (is_prefix l (c :: t)); [discriminate|].
    destruct (str_find l t); [discriminate|].
    intros _; now rewrite IH.
Qed.

(** An occurrence of [u ++ l] is an occurrence of [l], a little later. *)
Lemma str_find_suffix_none (u l s : str) :
  str_find l s = None -> str_find (u ++ l) s = None.
Proof.
  intro H; apply str_find_none_intro; intro i.
  destruct (is_prefix (u ++ l) (skipn i s)) eqn:E; [|reflexivity].
  apply is_prefix_inv in E.
  assert (F : is_prefix l (skipn (length u + i) s) = true).
  { rewrite <- skipn_skipn, E, <- app_assoc, skipn_length_app.
    apply is_prefix_app. }
  now rewrite (str_find_none l s H) in F.
Qed.

(** ** The pattern matcher *)

Lemma match_items_lit (l : str) (p : pattern) (s : str) :
  match_items (Lit l :: p) s =
  if is_prefix l s
  then option_map (Nat.add (length l)) (match_items p (skipn (length l) s))
  else None.
Proof. reflexivity. Qed.

Lemma match_items_lazy (p : pattern) (s : str) :
  match_items (AnyLazy :: p) s =
  match match_items p s with
  | Some n => Some n
  | None =>
      match s with
      | [] => None
      | _ :: t => option_map S (match_items (AnyLazy :: p) t)
      end
  end.
Proof. destruct s; reflexivity. Qed.

Lemma match_items_space (p : pattern) (s : str) :
  match_items (SpaceStar :: p) s =
  match s with
  | [] => match_items p []
  | c :: t =>
      if is_space c
      then match match_items (SpaceStar :: p) t with
           | Some n => Some (S n)
           | None => match_items p s
           end
      else match_items p s
  end.
Proof. destruct s; reflexivity. Qed.

(** A match is a prefix of the text that the pattern denotes. *)
Lemma match_items_sound (p : pattern) :
  forall s n, match_items p s = Some n ->
  exists x r, s = x ++ r /\ length x = n /\ lang p x.
Proof.
  induction p as [|it p IH]; intros s n H.
  - injection H as <-; now exists [], s.
  - destruct it as [l | |].
    + rewrite match_items_lit in H.
      destruct (is_prefix l s) eqn:E; [|discriminate].
      destruct (match_items p (skipn (length l) s)) as [k|] eqn:E';
        [|discriminate].
      injection H as <-.
      destruct (IH _ _ E') as (x & r & Hs & Hx & Hl).
      exists (l ++ x), r; repeat split.
      * rewrite <- app_assoc, <- Hs; now apply is_prefix_inv.
      * rewrite length_app; lia.
      * now exists x.
    + revert n H; induction s as [|c t IHs]; intros n H;
        rewrite match_items_lazy in H;
        destruct (match_items p _) as [k|] eqn:E'.
      * injection H as <-.
        destruct (IH _ _ E') as (x & r & Hs & Hx & Hl).
        exists x, r; repeat split; auto. now exists [], x.
      * discriminate.
      * injection H as <-.
        destruct (IH _ _ E') as (x & r & Hs & Hx & Hl).
        exists x, r; repeat split; auto. now exists [], x.
      * destruct (match_items (AnyLazy :: p) t) as [k|] eqn:E'';
          [|discriminate].
        injection H as <-.
        destruct (IHs _ eq_refl) as (x & r & Hs & Hx & (u & y & Hu & Hl)).
        exists (c :: x), r; repeat split; simpl; try congruence.
        exists (c :: u), y; split; [now rewrite Hu | exact Hl].
    + revert n H; induction s as [|c t IHs]; intros n H;
        rewrite match_items_space in H.
      * destruct (IH _ _ H) as (x & r & Hs & Hx & Hl).
        exists x, r; repeat split; auto. now exists [], x.
      * assert (Hp : match_items p (c :: t) = Some n ->
                     exists x r, c :: t = x ++ r /\ length x = n /\
                                 lang (SpaceStar :: p) x).
        { intro H'. destruct (IH _ _ H') as (x & r & Hs & Hx & Hl).
          exists x, r; repeat split; auto. now exists [], x. }
        destruct (is_space c) eqn:Ec; [|now apply Hp].
        destruct (match_items (SpaceStar :: p) t) as [k|] eqn:E'';
          [|now apply Hp].
        injection H as <-.
        destruct (IHs _ eq_refl)
          as (x & r & Hs & Hx & (u & y & Hu & Hsp & Hl)).
        exists (c :: x), r; repeat split; simpl; try congruence.
        exists (c :: u), y; repeat split; [now rewrite Hu | | exact Hl].
        simpl; now rewrite Ec.
Qed.

Lemma match_items_length (p : pattern) (s : str) (n : nat) :
  match_items p s = Some n -> n <= length s.
Proof.
  intro H; destruct (match_items_sound p s n H) as (x & r & -> & <- & _).
  rewrite length_app; lia.
Qed.

Lemma match_items_fits (l : str) (p : pattern) :
  l <> [] ->
  forall t n, match_items (Lit l :: p) t = Some n -> 0 < n <= length t.
Proof.
  intros Hl t n H; split; [|now apply (match_items_length _ _ _ H)].
  rewrite match_items_lit in H.
  destruct (is_prefix l t); [|discriminate].
  destruct (match_items p _); [|discriminate].
  injection H as <-; destruct l; [congruence | simpl; lia].
Qed.

(** A pattern that occurs nowhere in the text is not found by the search. *)
Lemma lang_absent_search (p : pattern) (c : str) :
  (forall pre x post, lang p x -> c <> pre ++ x ++ post) ->
  re_search (match_items p) c = None.
Proof.
  intro H; apply re_search_none_intro; intro i.
  destruct (match_items p (skipn i c)) as [n|] eqn:E; [|reflexivity].
  destruct (match_items_sound p _ _ E) as (x & r & Hs & _ & Hl).
  exfalso; apply (H (firstn i c) x r Hl).
  now rewrite <- Hs, firstn_skipn.
Qed.

(** Whatever the pattern denotes is matched: the matcher tries every way of
    cutting the text. *)
Lemma match_items_complete (p : pattern) :
  forall x r, lang p x -> match_items p (x ++ r) <> None.
Proof.
  induction p as [|it p IH]; intros x r Hl.
  - discriminate.
  - destruct it as [l | |].
    + destruct Hl as (y & -> & Hy).
      rewrite match_items_lit, <- app_assoc, is_prefix_app, skipn_length_app.
      specialize (IH y r Hy).
      now destruct (match_items p (y ++ r)).
    + destruct Hl as (u & y & -> & Hy).
      induction u as [|c u IHu]; rewrite match_items_lazy.
      * specialize (IH y r Hy); simpl app.
        now destruct (match_items p (y ++ r)).
      * destruct (match_items p _); [discriminate|].
        change (((c :: u) ++ y) ++ r) with (c :: ((u ++ y) ++ r)).
        lazy beta iota.
        now destruct (match_items (AnyLazy :: p) ((u ++ y) ++ r)).
    + destruct Hl as (u & y & -> & Hu & Hy).
      induction u as [|c u IHu]; rewrite match_items_space.
      * specialize (IH y r Hy); simpl app.
        destruct (y ++ r) as [|c t]; [exact IH|].
        destruct (is_space c); [|exact IH].
        now destruct (match_items (SpaceStar :: p) t).
      * simpl in Hu; apply andb_true_iff in Hu as [Hc Hu].
        change (((c :: u) ++ y) ++ r) with (c :: ((u ++ y) ++ r)).
        lazy beta iota; rewrite Hc.
        specialize (IHu Hu).
        now destruct (match_items (SpaceStar :: p) ((u ++ y) ++ r)).
Qed.

(** [re.search] finds nothing exactly when the pattern stands nowhere. *)
Lemma re_search_none_iff (p : pattern) (c : str) :
  re_search (match_items p) c = None <->
  (forall pre x post, lang p x -> c <> pre ++ x ++ post).
Proof.
  split; [|apply lang_absent_search].
  intros H pre x post Hl ->.
  apply (match_items_complete p x post Hl).
  rewrite <- (skipn_length_app pre (x ++ post)).
  now apply re_search_none.
Qed.

(** [str.find] finds nothing exactly when the word stands nowhere. *)
Lemma str_find_none_iff (l c : str) :
  str_find l c = None <-> (forall pre post, c <> pre ++ l ++ post).
Proof.
  split.
  - intros H pre post ->.
    assert (F := str_find_none _ _ H (length pre)).
    now rewrite skipn_length_app, is_prefix_app in F.
  - intro H; destruct (str_find l c) as [i|] eqn:E; [|reflexivity].
    now apply str_find_some, H in E.
Qed.

Lemma re_search_nil (m : str -> option nat) :
  re_search m [] = match m [] with Some n => Some (0, n) | None => None end.
Proof. reflexivity. Qed.

Lemma re_search_cons (m : str -> option nat) (c : char) (t : str) :
  re_search m (c :: t) =
  match m (c :: t) with
  | Some n => Some (0, n)
  | None => option_map (fun '(i, n) => (S i, n)) (re_search m t)
  end.
Proof. reflexivity. Qed.

(** *** [open.*?close] *)

Section TagPair.
Variables op cl : str.
Hypothesis op_nonempty : op <> [].

Lemma match_lazy_lit (s : str) :
  match_items [AnyLazy; Lit cl] s =
  option_map (fun j => j + length cl) (str_find cl s).
Proof.
  induction s as [|c t IH]; rewrite match_items_lazy, match_items_lit.
  - simpl str_find.
    destruct (is_prefix cl []); simpl; [f_equal; lia | reflexivity].
  - simpl str_find.
    destruct (is_prefix cl (c :: t)); [simpl; f_equal; lia|].
    rewrite IH; now destruct (str_find cl t).
Qed.

Lemma match_pair (s : str) :
  match_items [Lit op; AnyLazy; Lit cl] s =
  if is_prefix op s
  then option_map (fun j => length op + (j + length cl))
         (str_find cl (skipn (length op) s))
  else None.
Proof.
  rewrite match_items_lit, match_lazy_lit.
  destruct (is_prefix op s); [|reflexivity].
  now destruct (str_find cl _).
Qed.

(** The leftmost match starts at the first [op] and ends with the first
    [cl] behind it. *)
Lemma search_pair (c : str) :
  re_search (match_items [Lit op; AnyLazy; Lit cl]) c =
  match str_find op c with
  | None => None
  | Some i =>
      match str_find cl (skipn (i + length op) c) with
      | None => None
      | Some j => Some (i, length op + (j + length cl))
      end
  end.
Proof.
  induction c as [|a t IH].
  - rewrite re_search_nil, match_pair; simpl str_find.
    destruct (is_prefix op []) eqn:E; [|reflexivity].
    now apply is_prefix_nil in E.
  - rewrite re_search_cons, match_pair; simpl str_find.
    destruct (is_prefix op (a :: t)) eqn:E.
    + simpl Nat.add.
      destruct (str_find cl (skipn (length op) (a :: t))) as [j|] eqn:F;
        [reflexivity|].
      assert (R : re_search (match_items [Lit op; AnyLazy; Lit cl]) t = None);
        [|rewrite R; reflexivity].
      apply re_search_none_intro.
      intro i; rewrite match_pair.
      destruct (is_prefix op (skipn i t)); [|reflexivity].
      rewrite skipn_skipn.
      replace (skipn (length op + i) t)
        with (skipn (S i) (skipn (length op) (a :: t))).
      * now rewrite str_find_skipn_none.
      * rewrite skipn_skipn.
        destruct op as [|b o]; [congruence|].
        simpl length; rewrite Nat.add_succ_r.
        change (skipn (S (S i + length o)) (a :: t))
          with (skipn (S i + length o) t).
        f_equal; lia.
    + rewrite IH.
      destruct (str_find op t) as [i|]; [|reflexivity].
      simpl option_map; lazy beta iota.
      change (skipn (S i + length op) (a :: t))
        with (skipn (i + length op) t).
      now destruct (str_find cl (skipn (i + length op) t)).
Qed.
End TagPair.

(** ** The constants *)

Lemma new_section_split : new_section = promo_block ++ footer_marker.
Proof. vm_compute; reflexivity. Qed.

Lemma footer_marker_indented : footer_marker = py "    " ++ footer_tag.
Proof. vm_compute; reflexivity. Qed.

Lemma nonempty_by_length (s : str) : 0 < length s -> s <> [].
Proof. intros H ->; simpl in H; lia. Qed.

Lemma footer_marker_nonempty : footer_marker <> [].
Proof. apply nonempty_by_length; vm_compute; lia. Qed.

Lemma style_open_nonempty : style_open <> [].
Proof. apply nonempty_by_length; vm_compute; lia. Qed.

Lemma link_style_old_nonempty : link_style_old <> [].
Proof. apply nonempty_by_length; vm_compute; lia. Qed.

Lemma para_old_nonempty : para_old <> [].
Proof. apply nonempty_by_length; vm_compute; lia. Qed.

(** The replacement of [re.sub] is a template; without a backslash it
    stands for itself. *)
Lemma new_style_plain : existsb (N.eqb 92) new_style = false.
Proof. vm_compute; reflexivity. Qed.

Lemma promo_block_length : length promo_block = 882.
Proof. vm_compute; reflexivity. Qed.

(** ** The footer insertion *)

Lemma footer_step_find (c : str) :
  footer_step c =
  match str_find footer_marker c with
  | None => c
  | Some i =>
      firstn i c ++ promo_block ++ footer_marker ++
      footer_step (skipn (i + length footer_marker) c)
  end.
Proof.
  unfold footer_step at 1.
  rewrite (str_replace_find _ _ footer_marker_nonempty).
  destruct (str_find footer_marker c) as [i|]; [|reflexivity].
  change (str_replace footer_marker new_section
            (skipn (i + length footer_marker) c))
    with (footer_step (skipn (i + length footer_marker) c)).
  now rewrite new_section_split, <- app_assoc.
Qed.

Lemma footer_step_app_marker (x y : str) :
  footer_step (x ++ footer_marker ++ y) =
  footer_step x ++ promo_block ++ footer_marker ++ footer_step y.
Proof.
  unfold footer_step.
  rewrite (str_replace_app_old _ _ footer_marker_nonempty)
    by (vm_compute; reflexivity).
  now rewrite new_section_split, <- app_assoc.
Qed.

(** The insertion keeps the number of occurrences of any word that cannot
    touch the inserted block. *)
Lemma footer_step_preserves (w s : str) :
  no_overhang w promo_block = true ->
  no_overhang w footer_marker = true ->
  no_start_in w promo_block footer_marker = true ->
  occurrences w (footer_step s) = occurrences w s.
Proof.
  intros H1 H2 H3; unfold footer_step; rewrite new_section_split.
  now apply str_replace_occurrences; [apply footer_marker_nonempty | | |].
Qed.

Lemma occurrences_from_self (old post : str) :
  old <> [] -> 1 <= occurrences_from old old post.
Proof.
  intro H; destruct old as [|a o]; [congruence|].
  assert (P := is_prefix_app (a :: o) post).
  cbn [occurrences_from]; rewrite P; lia.
Qed.

(** ** The file-system program *)

Lemma paths_differ : String.eqb fremtidsplaner_path index_path = false.
Proof. reflexivity. Qed.

(** The five ways the script can end. *)
Lemma script_run (w : world) :
  script w =
  match read_result w index_path with
  | None => (None, w)
  | Some a =>
      if writable w index_path
      then
        let wa :=
          mkWorld (fun q => if String.eqb q index_path
                            then Some (patch_index a) else files w q)
                  (readable w) (writable w) (printed w) in
        match read_result w fremtidsplaner_path with
        | None => (None, wa)
        | Some b =>
            if writable w fremtidsplaner_path
            then
              (Some tt,
               mkWorld (fun q => if String.eqb q fremtidsplaner_path
                                 then Some (patch_fremtidsplaner b)
                                 else files wa q)
                       (readable w) (writable w)
                       (printed w ++ [done_line]))
            else (None, wa)
        end
      else (None, w)
  end.
Proof.
  unfold script, bind, read_text, write_text, print, read_result.
  destruct (readable w index_path); [|reflexivity].
  destruct (files w index_path) as [a|]; [|reflexivity].
  cbn [option_map]; destruct (writable w index_path); [|reflexivity].
  cbn [files readable writable printed]; rewrite paths_differ.
  destruct (readable w fremtidsplaner_path); [|reflexivity].
  destruct (files w fremtidsplaner_path) as [b|]; [|reflexivity].
  cbn [option_map files readable writable printed].
  destruct (writable w fremtidsplaner_path); reflexivity.
Qed.

(** * The claims *)

(** ** Footer insertion (index.html) *)

Lemma differ_by_length (s t : str) :
  Nat.eqb (length s) (length t) = false -> s <> t.
Proof. intros H ->; now rewrite Nat.eqb_refl in H. Qed.

(** C1, as the claim states it, fails: with two indented markers both are
    replaced, so the step differs from a replacement of the first
    occurrence only (of [<footer>] or of the indented marker); and a
    [<footer>] that is not indented is not replaced at all. *)
Lemma footer_step_not_first_only :
  str_find footer_tag two_markers = Some 4 /\
  footer_step two_markers = new_section ++ new_section /\
  footer_step two_markers
    <> str_replace_first footer_tag new_section two_markers /\
  footer_step two_markers
    <> str_replace_first footer_marker new_section two_markers /\
  str_find footer_tag footer_tag = Some 0 /\
  footer_step footer_tag = footer_tag.
Proof.
  repeat split; try (vm_compute; reflexivity);
    apply differ_by_length; vm_compute; reflexivity.
Qed.

(** C1 (amended): the footer insertion replaces every occurrence of the
    indented marker (four spaces and [<footer>]), scanning from the left:
    the text up to the first occurrence is kept, the marker becomes the
    promotional block followed by the marker, and the rest of the text is
    treated the same way; wherever the marker stands it is replaced; a text
    without the indented marker is returned as it is. *)
Theorem footer_step_every_marker :
  (forall c,
     footer_step c =
     match str_find footer_marker c with
     | None => c
     | Some i =>
         firstn i c ++ promo_block ++ footer_marker ++
         footer_step (skipn (i + length footer_marker) c)
     end) /\
  (forall x y,
     footer_step (x ++ footer_marker ++ y) =
     footer_step x ++ promo_block ++ footer_marker ++ footer_step y).
Proof. split; [apply footer_step_find | apply footer_step_app_marker]. Qed.

(** C3, as the claim states it, fails: the minimal page has no indented
    marker and comes back unchanged, whatever is taken for the new block
    (with or without the indentation of the marker). *)
Lemma minimal_page_not_patched :
  patch_index minimal_page = minimal_page /\
  patch_index minimal_page
    <> py "<html><body>" ++ promo_block
       ++ py "<footer>x</footer></body></html>" /\
  patch_index minimal_page
    <> py "<html><body>" ++ (promo_block ++ py "    ")
       ++ py "<footer>x</footer></body></html>".
Proof.
  repeat split; try (vm_compute; reflexivity);
    apply differ_by_length; vm_compute; reflexivity.
Qed.

(** C3 (amended): the minimal page
    [<html><body><footer>x</footer></body></html>] is returned unchanged;
    with the marker indented by four spaces the result is [<html><body>],
    the promotional block, the indented marker and
    [x</footer></body></html>]. *)
Theorem minimal_page_end_to_end :
  patch_index minimal_page = minimal_page /\
  patch_index indented_page =
  py "<html><body>" ++ promo_block ++ footer_marker
  ++ py "x</footer></body></html>".
Proof. split; vm_compute; reflexivity. Qed.

(** C4, as the claim states it, fails: a text with exactly one [<footer>]
    that is not indented keeps its marker but gets no block. *)
Lemma single_footer_without_block :
  occurrences footer_tag footer_tag = 1 /\
  occurrences promo_block (footer_step footer_tag) = 0 /\
  footer_step footer_tag = footer_tag.
Proof. repeat split; vm_compute; reflexivity. Qed.

(** C4 (amended): for a text with exactly one occurrence of the indented
    marker, the output is the text with the promotional block inserted
    immediately in front of that marker, and the indented marker occurs
    exactly once in the output. *)
Theorem footer_step_single_marker (c : str) :
  occurrences footer_marker c = 1 ->
  exists pre post,
    c = pre ++ footer_marker ++ post /\
    footer_step c = pre ++ promo_block ++ footer_marker ++ post /\
    occurrences footer_marker (footer_step c) = 1.
Proof.
  intro H.
  destruct (str_find footer_marker c) as [i|] eqn:F.
  2: { apply str_find_occurrences in F; congruence. }
  assert (Hc := str_find_some _ _ _ F).
  set (pre := firstn i c) in *.
  set (post := skipn (i + length footer_marker) c) in *.
  assert (Hpost : occurrences footer_marker post = 0).
  { assert (H' := H); rewrite Hc, !occurrences_app in H'.
    assert (S := occurrences_from_self footer_marker post
                   footer_marker_nonempty).
    lia. }
  exists pre, post; split; [exact Hc|]; split.
  - rewrite footer_step_find, F; fold pre post.
    unfold footer_step at 1.
    now rewrite (str_replace_absent _ _ footer_marker_nonempty _ Hpost).
  - rewrite footer_step_preserves; [exact H | | |]; vm_compute; reflexivity.
Qed.

(** The indented page has exactly one indented marker. *)
Lemma footer_step_single_marker_witness :
  occurrences footer_marker indented_page = 1 /\
  exists pre post,
    indented_page = pre ++ footer_marker ++ post /\
    footer_step indented_page = pre ++ promo_block ++ footer_marker ++ post /\
    occurrences footer_marker (footer_step indented_page) = 1.
Proof.
  split; [reflexivity|].
  apply (footer_step_single_marker indented_page); reflexivity.
Defined.

(** C8: the footer insertion keeps the number of occurrences of
    [<footer>]; the replacement itself contains [<footer>] once. *)
Theorem footer_step_keeps_footer_count :
  (forall s, occurrences footer_tag (footer_step s) = occurrences footer_tag s)
  /\ occurrences footer_tag new_section = 1.
Proof.
  split; [|vm_compute; reflexivity].
  intro s; apply footer_step_preserves; vm_compute; reflexivity.
Qed.

(** ** Stylesheet replacement (fremtidsplaner.html) *)

(** C2, as the claim states it, fails: with two [<style>] blocks both are
    replaced, so the step differs from a substitution of the first match
    only. *)
Lemma style_step_not_first_only :
  first_style_pair two_styles = Some (0, 1) /\
  style_step two_styles = new_style ++ new_style /\
  re_sub_first style_pattern new_style two_styles
    = new_style ++ py "<style>b</style>" /\
  style_step two_styles <> re_sub_first style_pattern new_style two_styles.
Proof.
  repeat split; try (vm_compute; reflexivity).
  apply differ_by_length; vm_compute; reflexivity.
Qed.

(** C2 (amended): the stylesheet step replaces every [<style>...</style>]
    pair, scanning from the left: the text up to the first [<style>] is
    kept, the pair that runs from there to the first [</style>] behind it
    (across newlines) becomes the fixed stylesheet verbatim, and the rest
    of the text is treated the same way; without such a pair the text is
    returned as it is. *)
Theorem style_step_every_pair (c : str) :
  style_step c =
  match first_style_pair c with
  | None => c
  | Some (i, j) =>
      firstn i c ++ new_style ++
      style_step
        (skipn (i + (length style_open + (j + length style_close))) c)
  end.
Proof.
  unfold style_step at 1, re_sub.
  rewrite scan_search
    by (apply (match_items_fits style_open _ style_open_nonempty)).
  unfold style_pattern at 1.
  rewrite (search_pair _ _ style_open_nonempty).
  unfold first_style_pair.
  destruct (str_find style_open c) as [i|]; [|reflexivity].
  destruct (str_find style_close _) as [j|]; reflexivity.
Qed.

(** ** Literal replacements *)

(** C5: the link-colour step rewrites every occurrence of the old
    attribute value: wherever the old value stands in the input it becomes
    the new value, the text on both sides being treated independently, and
    no occurrence of the old value is left in the output. *)
Theorem link_step_every_occurrence :
  (forall x y,
     link_step (x ++ link_style_old ++ y) =
     link_step x ++ link_style_new ++ link_step y) /\
  (forall s, occurrences link_style_old (link_step s) = 0).
Proof.
  split; intros; unfold link_step.
  - apply str_replace_app_old;
      [apply link_style_old_nonempty | vm_compute; reflexivity].
  - apply str_replace_none_left;
      [apply link_style_old_nonempty | |]; vm_compute; reflexivity.
Qed.

(** C9: the paragraph-colour step is idempotent, and the new tag does not
    contain the old one. *)
Theorem para_step_idempotent :
  (forall s, para_step (para_step s) = para_step s) /\
  occurrences para_old para_new = 0.
Proof.
  split; [|vm_compute; reflexivity].
  intro s; unfold para_step.
  apply str_replace_idempotent;
    [apply para_old_nonempty | |]; vm_compute; reflexivity.
Qed.

(** ** No match, no change *)

(** What the hypotheses of the next theorem say: [str.find] and
    [re.search] return nothing exactly when the marker, a
    [<style>...</style>] pair, or the background block stands nowhere in
    the text. *)
Lemma style_pair_absent_iff (c : str) :
  re_search (match_items style_pattern) c = None <->
  (forall pre body post,
     c <> pre ++ style_open ++ body ++ style_close ++ post).
Proof.
  rewrite re_search_none_iff; split; intro H.
  - intros pre body post Hc.
    apply (H pre (style_open ++ body ++ style_close) post).
    + exists (body ++ style_close); split; [reflexivity|].
      exists body, style_close; split; [reflexivity|].
      exists []; split; [now rewrite app_nil_r | reflexivity].
    + now rewrite Hc, <- !app_assoc.
  - intros pre x post (y & -> & u & z & -> & t & -> & ->) Hc.
    apply (H pre u post); rewrite Hc, app_nil_r.
    now rewrite <- !app_assoc.
Qed.

Lemma bg_block_absent_iff (c : str) :
  re_search (match_items bg_elements_pattern) c = None <->
  (forall pre x post, lang bg_elements_pattern x -> c <> pre ++ x ++ post).
Proof. apply re_search_none_iff. Qed.

Lemma footer_marker_absent_iff (c : str) :
  str_find footer_marker c = None <->
  (forall pre post, c <> pre ++ footer_marker ++ post).
Proof. apply str_find_none_iff. Qed.

(** C7: a rule whose matcher is not found returns the text unchanged:
    the footer insertion when [<footer>] (or just the indented marker) is
    absent, the stylesheet step when the pattern has no match, the
    background removal when its pattern has no match.  The steps are total
    functions: nothing is raised. *)
Theorem absent_matcher_noop (c : str) :
  (str_find footer_tag c = None -> footer_step c = c) /\
  (str_find footer_marker c = None -> footer_step c = c) /\
  (re_search (match_items style_pattern) c = None -> style_step c = c) /\
  (re_search (match_items bg_elements_pattern) c = None -> bg_step c = c).
Proof.
  assert (Hm : str_find footer_marker c = None -> footer_step c = c).
  { intro H; rewrite footer_step_find; now rewrite H. }
  repeat split.
  - intro H; apply Hm.
    rewrite footer_marker_indented; now apply str_find_suffix_none.
  - exact Hm.
  - intro H; apply scan_absent, re_search_none, H.
  - intro H; apply scan_absent, re_search_none, H.
Qed.

(** A page without footer, stylesheet or background block. *)
Lemma absent_matcher_noop_witness :
  (str_find footer_tag plain_page = None /\
   footer_step plain_page = plain_page) /\
  (str_find footer_marker plain_page = None /\
   footer_step plain_page = plain_page) /\
  (re_search (match_items style_pattern) plain_page = None /\
   style_step plain_page = plain_page) /\
  (re_search (match_items bg_elements_pattern) plain_page = None /\
   bg_step plain_page = plain_page).
Proof.
  destruct (absent_matcher_noop plain_page) as (H1 & H2 & H3 & H4).
  split; [split; [reflexivity | apply H1; reflexivity]|].
  split; [split; [reflexivity | apply H2; reflexivity]|].
  split; [split; [reflexivity | apply H3; reflexivity]|].
  split; [reflexivity | apply H4; reflexivity].
Defined.

(** ** Running twice *)

(** C6: the patch is not idempotent: there are contents on which a second
    run changes what the first run produced. *)
Theorem patch_not_idempotent :
  exists a b,
    patch_contents (patch_contents (a, b)) <> patch_contents (a, b).
Proof.
  exists indented_page, two_styles; intro H.
  apply (f_equal (fun ab => length (fst ab))) in H.
  vm_compute in H; discriminate H.
Qed.

(** ** Determinism *)

Lemma read_result_some (w : world) (p : path) (x : str) :
  read_result w p = Some x ->
  readable w p = true /\
  exists c, files w p = Some c /\ x = universal_newlines c.
Proof.
  unfold read_result; destruct (readable w p); [|discriminate].
  destruct (files w p) as [c|]; [|discriminate].
  intro H; injection H as <-; split; [reflexivity | now exists c].
Qed.

Lemma read_result_agree (w1 w2 : world) (p : path) :
  files w1 p = files w2 p -> readable w1 p = readable w2 p ->
  read_result w1 p = read_result w2 p.
Proof. unfold read_result; now intros -> ->. Qed.

(** When both reads succeed on the same text they give the same text. *)
Lemma read_result_same_text (w1 w2 : world) (p : path) (x1 x2 : str) :
  files w1 p = files w2 p ->
  read_result w1 p = Some x1 -> read_result w2 p = Some x2 -> x1 = x2.
Proof.
  intros Hf H1 H2.
  apply read_result_some in H1 as (_ & c1 & F1 & ->).
  apply read_result_some in H2 as (_ & c2 & F2 & ->).
  congruence.
Qed.

(** C10, as the claim states it, fails: the two sample worlds hold the
    same two pages, but in the second [index.html] may not be opened for
    writing; the first run returns, rewrites the page and prints its line,
    the second raises, leaves the page as it was and prints nothing. *)
Lemma script_depends_on_write_access :
  files world_one index_path = files world_read_only index_path /\
  files world_one fremtidsplaner_path
    = files world_read_only fremtidsplaner_path /\
  fst (script world_one) = Some tt /\
  fst (script world_read_only) = None /\
  files (snd (script world_one)) index_path
    <> files (snd (script world_read_only)) index_path /\
  printed (snd (script world_one)) = [done_line] /\
  printed (snd (script world_read_only)) = [].
Proof.
  repeat split; try (vm_compute; reflexivity).
  intro H; apply (f_equal (option_map (@length char))) in H.
  vm_compute in H; discriminate H.
Qed.

(** C10 (amended): the outcome of the script depends on the contents of
    the two files and on whether they may be opened, and on nothing else:
    from two worlds that agree on the contents of both files and on the
    permission to read and to write them, the script ends the same way,
    leaves the same contents in both files and prints the same lines; and
    whenever both runs return, equal contents alone give equal contents
    afterwards and the same printed line. *)
Theorem script_deterministic (w1 w2 : world) :
  files w1 index_path = files w2 index_path ->
  files w1 fremtidsplaner_path = files w2 fremtidsplaner_path ->
  (readable w1 index_path = readable w2 index_path ->
   writable w1 index_path = writable w2 index_path ->
   readable w1 fremtidsplaner_path = readable w2 fremtidsplaner_path ->
   writable w1 fremtidsplaner_path = writable w2 fremtidsplaner_path ->
   fst (script w1) = fst (script w2) /\
   files (snd (script w1)) index_path = files (snd (script w2)) index_path /\
   files (snd (script w1)) fremtidsplaner_path
     = files (snd (script w2)) fremtidsplaner_path /\
   exists out,
     printed (snd (script w1)) = printed w1 ++ out /\
     printed (snd (script w2)) = printed w2 ++ out) /\
  (fst (script w1) = Some tt -> fst (script w2) = Some tt ->
   files (snd (script w1)) index_path = files (snd (script w2)) index_path /\
   files (snd (script w1)) fremtidsplaner_path
     = files (snd (script w2)) fremtidsplaner_path /\
   printed (snd (script w1)) = printed w1 ++ [done_line] /\
   printed (snd (script w2)) = printed w2 ++ [done_line]).
Proof.
  intros HA HB; split.
  - intros RA WA RB WB; rewrite !script_run.
    rewrite <- (read_result_agree w1 w2 _ HA RA).
    rewrite <- (read_result_agree w1 w2 _ HB RB), <- WA, <- WB.
    destruct (read_result w1 index_path) as [a|];
      [destruct (writable w1 index_path);
       [destruct (read_result w1 fremtidsplaner_path) as [b|];
        [destruct (writable w1 fremtidsplaner_path)|]|]|];
      cbn [fst snd files printed];
      rewrite ?paths_differ, ?String.eqb_refl;
      (repeat split; try congruence);
      try (exists []; now rewrite !app_nil_r).
    exists [done_line]; now split.
  - rewrite !script_run.
    destruct (read_result w1 index_path) as [a1|] eqn:A1; [|discriminate].
    destruct (read_result w2 index_path) as [a2|] eqn:A2;
      [|destruct (writable w1 index_path);
        [destruct (read_result w1 fremtidsplaner_path);
         [destruct (writable w1 fremtidsplaner_path)|]|]; discriminate].
    assert (Ea := read_result_same_text w1 w2 _ a1 a2 HA A1 A2); subst a2.
    destruct (writable w1 index_path); [|discriminate].
    destruct (writable w2 index_path);
      [|destruct (read_result w1 fremtidsplaner_path);
        [destruct (writable w1 fremtidsplaner_path)|]; discriminate].
    destruct (read_result w1 fremtidsplaner_path) as [b1|] eqn:B1;
      [|discriminate].
    destruct (read_result w2 fremtidsplaner_path) as [b2|] eqn:B2;
      [|destruct (writable w1 fremtidsplaner_path); discriminate].
    assert (Eb := read_result_same_text w1 w2 _ b1 b2 HB B1 B2); subst b2.
    destruct (writable w1 fremtidsplaner_path); [|discriminate].
    destruct (writable w2 fremtidsplaner_path); [|discriminate].
    intros _ _; cbn [fst snd files printed].
    rewrite ?paths_differ, ?String.eqb_refl; repeat split.
Qed.

(** Two worlds that agree on the two pages and differ everywhere else. *)
Lemma script_deterministic_witness :
  files world_one index_path = files world_two index_path /\
  files world_one fremtidsplaner_path = files world_two fremtidsplaner_path /\
  (readable world_one index_path = readable world_two index_path /\
   writable world_one index_path = writable world_two index_path /\
   readable world_one fremtidsplaner_path
     = readable world_two fremtidsplaner_path /\
   writable world_one fremtidsplaner_path
     = writable world_two fremtidsplaner_path /\
   fst (script world_one) = fst (script world_two) /\
   files (snd (script world_one)) index_path
     = files (snd (script world_two)) index_path /\
   files (snd (script world_one)) fremtidsplaner_path
     = files (snd (script world_two)) fremtidsplaner_path /\
   exists out,
     printed (snd (script world_one)) = printed world_one ++ out /\
     printed (snd (script world_two)) = printed world_two ++ out) /\
  (fst (script world_one) = Some tt /\ fst (script world_two) = Some tt /\
   files (snd (script world_one)) index_path
     = files (snd (script world_two)) index_path /\
   files (snd (script world_one)) fremtidsplaner_path
     = files (snd (script world_two)) fremtidsplaner_path /\
   printed (snd (script world_one)) = printed world_one ++ [done_line] /\
   printed (snd (script world_two)) = printed world_two ++ [done_line]).
Proof.
  destruct (script_deterministic world_one world_two eq_refl eq_refl)
    as [P1 P2].
  split; [reflexivity|]; split; [reflexivity|]; split.
  - do 4 (split; [reflexivity|]); apply P1; reflexivity.
  - do 2 (split; [reflexivity|]); apply P2; reflexivity.
Defined.

(** * Further properties of the script *)

(** ** Characters and lengths under substitution *)

Lemma scan_from_chars (m : str -> option nat) (repl : str) (c : char) :
  forall s k, In c (scan_from m repl k s) -> In c repl \/ In c s.
Proof.
  induction s as [|d t IH]; intros k H.
  - simpl in H; unfold at_end in H.
    destruct (m []); [now left | contradiction].
  - destruct k as [|k]; simpl in H.
    + destruct (m (d :: t)) as [[|n]|].
      * apply in_app_or in H as [H | [H | H]]; [now left | right; now left |].
        apply IH in H as [H | H]; [now left | right; now right].
      * apply in_app_or in H as [H | H]; [now left|].
        apply IH in H as [H | H]; [now left | right; now right].
      * destruct H as [H | H]; [right; now left|].
        apply IH in H as [H | H]; [now left | right; now right].
    + apply IH in H as [H | H]; [now left | right; now right].
Qed.

(** A substitution brings in no character of its own: what is in the
    output was in the input or in the replacement. *)
Lemma scan_chars (m : str -> option nat) (repl s : str) (c : char) :
  In c (scan m repl s) -> In c repl \/ In c s.
Proof. apply scan_from_chars. Qed.

Lemma not_in_by_existsb (c : char) (s : str) :
  existsb (N.eqb c) s = false -> ~ In c s.
Proof.
  intros H Hin.
  assert (E : existsb (N.eqb c) s = true)
    by (apply existsb_exists; exists c; split; [exact Hin | apply N.eqb_refl]).
  congruence.
Qed.

Lemma no_overhang_compat (w y : str) (k : nat) :
  no_overhang w y = true -> 1 <= k < length w ->
  compat (skipn k w) y = false.
Proof.
  unfold no_overhang; intros H Hk.
  rewrite forallb_forall in H.
  assert (Hin : In k (seq 1 (length w - 1))) by (apply in_seq; lia).
  now apply H, negb_true_iff in Hin.
Qed.

Lemma no_start_in_pointwise (w x y z : str) (j : nat) :
  no_start_in w x y = true -> j < length x ->
  is_prefix w (skipn j x ++ y ++ z) = false.
Proof.
  unfold no_start_in; intros H Hj.
  rewrite forallb_forall in H.
  assert (Hin : In j (seq 0 (length x))) by (apply in_seq; lia).
  apply H, negb_true_iff in Hin.
  destruct (is_prefix w (skipn j x ++ y ++ z)) eqn:E; [|reflexivity].
  rewrite app_assoc in E; apply is_prefix_compat in E; congruence.
Qed.

(** A word that cannot overlap itself does not occur across the edge of
    one of its occurrences. *)
Lemma unbordered_no_shift (w rest : str) (k : nat) :
  no_overhang w w = true -> 1 <= k < length w ->
  is_prefix w (skipn k w ++ rest) = false.
Proof.
  intros Hw Hk.
  destruct (is_prefix w (skipn k w ++ rest)) eqn:E; [|reflexivity].
  apply is_prefix_compat in E; unfold compat in E.
  assert (C := no_overhang_compat w w k Hw Hk); unfold compat in C.
  rewrite orb_comm in E; congruence.
Qed.

Lemma occurrences_self_app (old rest : str) :
  old <> [] -> no_overhang old old = true ->
  occurrences old (old ++ rest) = S (occurrences old rest).
Proof.
  intros Hne Hub; rewrite occurrences_app; f_equal.
  destruct old as [|a o]; [congruence|].
  assert (P := is_prefix_app (a :: o) rest).
  cbn [occurrences_from]; rewrite P.
  rewrite occurrences_from_none; [reflexivity|].
  intros j Hj.
  change (skipn j o) with (skipn (S j) (a :: o)).
  apply unbordered_no_shift; [exact Hub | simpl; lia].
Qed.

Section ReplaceLength.
Variables old new : str.
Hypothesis old_nonempty : old <> [].
Hypothesis old_unbordered : no_overhang old old = true.

(** Every occurrence is exchanged: the length changes by the difference
    of the two words for each occurrence. *)
Lemma str_replace_length (s : str) :
  length (str_replace old new s) + occurrences old s * length old =
  length s + occurrences old s * length new.
Proof.
  induction s as [| rest IH | c t E IH] using (replace_ind old old_nonempty).
  - rewrite str_replace_nil by assumption; simpl.
    destruct (is_prefix old []) eqn:E; [|reflexivity].
    now apply is_prefix_nil in E.
  - rewrite str_replace_match, occurrences_self_app by assumption.
    rewrite !length_app; lia.
  - rewrite str_replace_skip by assumption.
    cbn [occurrences length]; rewrite E; lia.
Qed.
End ReplaceLength.

(** *** A replacement that cannot form a given word *)
Section NoNew.
Variables w old new : str.
Hypothesis old_nonempty : old <> [].
Hypothesis new_closed_left : no_overhang w new = true.
Hypothesis new_closed_in : no_start_in w new [] = true.

Lemma str_replace_no_new_word_prefix (s a : str) :
  a <> [] ->
  is_prefix w (a ++ str_replace old new s) = true ->
  is_prefix w (a ++ s) = true.
Proof.
  revert a;
    induction s as [| rest IH | c t E IH] using (replace_ind old old_nonempty);
    intros a Ha H.
  - now rewrite str_replace_nil in H.
  - rewrite str_replace_match in H by assumption.
    apply is_prefix_split in H as [H | (Hlen & _ & H)].
    + now apply is_prefix_weaken.
    + rewrite no_overhang_spec in H; [discriminate | assumption |].
      destruct a; [congruence | simpl; simpl in Hlen; lia].
  - rewrite str_replace_skip in H by assumption.
    change (a ++ c :: str_replace old new t)
      with (a ++ [c] ++ str_replace old new t) in H.
    rewrite app_assoc in H; apply IH in H.
    + now rewrite <- app_assoc in H.
    + now destruct a.
Qed.

Lemma str_replace_no_new_word (s : str) :
  occurrences w (str_replace old new s) <= occurrences w s.
Proof.
  induction s as [| rest IH | c t E IH] using (replace_ind old old_nonempty).
  - now rewrite str_replace_nil.
  - rewrite str_replace_match, !occurrences_app by assumption.
    rewrite <- (app_nil_l (str_replace old new rest)) at 1.
    rewrite no_start_in_spec by assumption; simpl app; lia.
  - rewrite str_replace_skip by assumption.
    cbn [occurrences].
    destruct (is_prefix w (c :: str_replace old new t)) eqn:E'; [|lia].
    apply (str_replace_no_new_word_prefix t [c]) in E'; [|discriminate].
    simpl app in E'; rewrite E'; lia.
Qed.
End NoNew.

(** ** Reading with universal newlines *)

Lemma universal_newlines_no_cr_bounded (n : nat) :
  forall s, length s <= n -> ~ In cr (universal_newlines s).
Proof.
  induction n as [|n IH]; intros [|c t] Hn; simpl in *;
    try (intros []); try lia.
  destruct (c =? 13)%N eqn:Ec.
  - intros [H | H]; [discriminate H|].
    destruct t as [|d t']; [contradiction|].
    destruct (d =? 10)%N; revert H; apply IH; simpl in *; lia.
  - intros [H | H].
    + apply N.eqb_neq in Ec; now apply Ec.
    + revert H; apply IH; lia.
Qed.

Lemma universal_newlines_no_cr (s : str) : ~ In cr (universal_newlines s).
Proof. now apply (universal_newlines_no_cr_bounded (length s)). Qed.

Lemma universal_newlines_plain (s : str) :
  ~ In cr s -> universal_newlines s = s.
Proof.
  induction s as [|c t IH]; intro H; [reflexivity|].
  simpl; destruct (c =? 13)%N eqn:Ec.
  - apply N.eqb_eq in Ec; exfalso; apply H; now left.
  - f_equal; apply IH; intro Hin; apply H; now right.
Qed.

(** ** Locating the first match *)

(** While nothing matches, the walk copies. *)
Lemma scan_skip_prefix (m : str -> option nat) (repl pre rest : str) :
  (forall j, j < length pre -> m (skipn j pre ++ rest) = None) ->
  scan m repl (pre ++ rest) = pre ++ scan m repl rest.
Proof.
  induction pre as [|c pre IH]; intro H; [reflexivity|].
  simpl app; rewrite scan_cons_none.
  - f_equal; apply IH; intros j Hj; apply (H (S j)); simpl; lia.
  - apply (H 0); simpl; lia.
Qed.

(** A match at the head is replaced and the walk resumes behind it. *)
Lemma scan_head_match (m : str -> option nat) (repl x rest : str) :
  x <> [] -> m (x ++ rest) = Some (length x) ->
  scan m repl (x ++ rest) = repl ++ scan m repl rest.
Proof.
  intros Hx H; destruct x as [|c x]; [congruence|].
  simpl app in *; simpl length in H.
  rewrite (scan_cons_some m repl c (x ++ rest) (length x) H).
  now rewrite <- (skipn_length_app x rest) at 2.
Qed.

(** In front of an occurrence of a word that cannot overlap itself, and
    behind a text without the word, the word does not occur. *)
Lemma prefix_clear (w x rest : str) (j : nat) :
  str_find w x = None -> no_overhang w w = true -> j < length x ->
  is_prefix w (skipn j x ++ w ++ rest) = false.
Proof.
  intros Hx Hw Hj.
  destruct (is_prefix w (skipn j x ++ w ++ rest)) eqn:E; [|reflexivity].
  apply is_prefix_split in E as [E | (Hlen & _ & E)].
  - now rewrite (str_find_none w x Hx j) in E.
  - rewrite no_overhang_spec in E; [discriminate | exact Hw |].
    rewrite length_skipn in *; lia.
Qed.

Lemma str_find_head (w s : str) :
  is_prefix w s = true -> str_find w s = Some 0.
Proof. intro H; destruct s; simpl; now rewrite H. Qed.

Lemma str_find_first (w x z : str) :
  (forall j, j < length x -> is_prefix w (skipn j x ++ w ++ z) = false) ->
  str_find w (x ++ w ++ z) = Some (length x).
Proof.
  induction x as [|c x IH]; intro H.
  - simpl app; simpl length; apply str_find_head, is_prefix_app.
  - simpl app; simpl str_find.
    assert (H0 : is_prefix w (c :: x ++ w ++ z) = false)
      by (apply (H 0); simpl; lia).
    rewrite H0, IH; [reflexivity|].
    intros j Hj; apply (H (S j)); simpl; lia.
Qed.

Lemma str_find_app_none (w x y : str) :
  str_find w x = None -> str_find w y = None ->
  (forall k, 1 <= k < length w -> is_prefix (skipn k w) y = false) ->
  str_find w (x ++ y) = None.
Proof.
  intros Hx Hy Ho; apply str_find_none_intro; intro i.
  rewrite skipn_app.
  destruct (is_prefix w (skipn i x ++ skipn (i - length x) y)) eqn:E;
    [|reflexivity].
  destruct (Nat.lt_ge_cases i (length x)) as [Hi | Hi].
  - replace (i - length x) with 0 in E by lia; simpl skipn in E.
    apply is_prefix_split in E as [E | (Hlen & _ & E)].
    + now rewrite (str_find_none w x Hx i) in E.
    + rewrite Ho in E; [discriminate|].
      rewrite length_skipn in *; lia.
  - rewrite skipn_all2 in E by exact Hi; simpl app in E.
    now rewrite (str_find_none w y Hy) in E.
Qed.

(** ** Patterns without choice *)

Lemma match_items_unambiguous (p : pattern) :
  unambiguous p = true ->
  forall x r, lang p x -> match_items p (x ++ r) = Some (length x).
Proof.
  induction p as [|it p IH]; intros Hp x r Hl.
  - simpl in Hl; subst x; reflexivity.
  - destruct it as [l | |]; [| discriminate Hp |].
    + destruct Hl as (y & -> & Hy).
      rewrite match_items_lit, <- app_assoc, is_prefix_app, skipn_length_app.
      rewrite (IH Hp y r Hy), length_app; reflexivity.
    + destruct p as [|[[|c0 l] | |] p']; try discriminate Hp.
      cbn [unambiguous] in Hp; apply andb_true_iff in Hp as [Hc0 Hp].
      apply negb_true_iff in Hc0.
      destruct Hl as (u & y & -> & Hu & Hy).
      assert (Hy' := Hy); destruct Hy' as (z & -> & _).
      specialize (IH Hp _ r Hy).
      induction u as [|c u IHu]; rewrite match_items_space.
      * simpl app in *; lazy beta iota; now rewrite Hc0.
      * simpl in Hu; apply andb_true_iff in Hu as [Hc Hu].
        change (((c :: u) ++ (c0 :: l) ++ z) ++ r)
          with (c :: ((u ++ (c0 :: l) ++ z) ++ r)).
        lazy beta iota; rewrite Hc, (IHu Hu); reflexivity.
Qed.

(** ** The script on the file system *)

Lemma paths_differ_sym : String.eqb index_path fremtidsplaner_path = false.
Proof. reflexivity. Qed.

Lemma new_section_no_cr : ~ In cr new_section.
Proof. apply not_in_by_existsb; vm_compute; reflexivity. Qed.

Lemma new_style_no_cr : ~ In cr new_style.
Proof. apply not_in_by_existsb; vm_compute; reflexivity. Qed.

Lemma patch_index_no_cr (s : str) :
  ~ In cr s -> ~ In cr (patch_index s).
Proof.
  intros Hs H; unfold patch_index, footer_step, str_replace in H.
  apply scan_chars in H as [H | H]; [now apply new_section_no_cr | auto].
Qed.

Lemma patch_fremtidsplaner_no_cr (s : str) :
  ~ In cr s -> ~ In cr (patch_fremtidsplaner s).
Proof.
  intros Hs H.
  unfold patch_fremtidsplaner, para_step, link_step, bg_step, style_step,
    str_replace, re_sub in H.
  apply scan_chars in H as [H | H].
  { revert H; apply not_in_by_existsb; vm_compute; reflexivity. }
  apply scan_chars in H as [H | H].
  { revert H; apply not_in_by_existsb; vm_compute; reflexivity. }
  apply scan_chars in H as [H | H]; [contradiction|].
  apply scan_chars in H as [H | H]; [now apply new_style_no_cr | auto].
Qed.

(** X1: whatever happens, the script leaves every file other than the two
    pages as it was. *)
Theorem script_touches_two_files (w : world) (q : path) :
  q <> index_path -> q <> fremtidsplaner_path ->
  files (snd (script w)) q = files w q.
Proof.
  intros Hi Hf; apply String.eqb_neq in Hi, Hf.
  rewrite script_run.
  destruct (read_result w index_path) as [a|]; [|reflexivity].
  destruct (writable w index_path); [|reflexivity].
  destruct (read_result w fremtidsplaner_path) as [b|];
    [destruct (writable w fremtidsplaner_path)|];
    cbn [snd files]; now rewrite ?Hf, ?Hi.
Qed.

(** The notes of the second sample world survive the run. *)
Lemma script_touches_two_files_witness :
  other_path <> index_path /\ other_path <> fremtidsplaner_path /\
  files (snd (script world_two)) other_path = files world_two other_path.
Proof.
  assert (Hi : other_path <> index_path) by discriminate.
  assert (Hf : other_path <> fremtidsplaner_path) by discriminate.
  split; [exact Hi|]; split; [exact Hf|].
  apply (script_touches_two_files world_two other_path Hi Hf).
Defined.

(** X2: the script returns exactly when each of the two pages can be read
    and opened for writing, and it prints its one line exactly when it
    returns. *)
Theorem script_outcome (w : world) :
  (fst (script w) = Some tt <->
   can_patch w index_path = true /\ can_patch w fremtidsplaner_path = true)
  /\
  printed (snd (script w)) =
  match fst (script w) with
  | Some _ => printed w ++ [done_line]
  | None => printed w
  end.
Proof.
  rewrite script_run; unfold can_patch.
  destruct (read_result w index_path) as [a|];
    [destruct (writable w index_path);
     [destruct (read_result w fremtidsplaner_path) as [b|];
      [destruct (writable w fremtidsplaner_path)|]|]|];
    cbn [fst snd printed]; (split; [split|reflexivity]);
    try discriminate; try (intros [H1 H2]; discriminate);
    intros _; try reflexivity; now split.
Qed.

(** X3: there is no rollback: when the first page has been read and
    rewritten and the second page cannot be read or cannot be opened for
    writing, the script raises with the first page already rewritten, the
    second page as it was, and nothing printed. *)
Theorem script_no_rollback (w : world) (a : str) :
  read_result w index_path = Some a ->
  writable w index_path = true ->
  can_patch w fremtidsplaner_path = false ->
  fst (script w) = None /\
  files (snd (script w)) index_path = Some (patch_index a) /\
  files (snd (script w)) fremtidsplaner_path = files w fremtidsplaner_path /\
  printed (snd (script w)) = printed w.
Proof.
  intros Ha Hw Hb; rewrite script_run, Ha, Hw; unfold can_patch in Hb.
  destruct (read_result w fremtidsplaner_path) as [b|];
    [rewrite Hb|]; cbn [fst snd files printed];
    now rewrite String.eqb_refl, paths_differ.
Qed.

Lemma script_no_rollback_witness :
  read_result world_index_only index_path = Some indented_page /\
  writable world_index_only index_path = true /\
  can_patch world_index_only fremtidsplaner_path = false /\
  fst (script world_index_only) = None /\
  files (snd (script world_index_only)) index_path
    = Some (patch_index indented_page) /\
  files (snd (script world_index_only)) fremtidsplaner_path
    = files world_index_only fremtidsplaner_path /\
  printed (snd (script world_index_only)) = printed world_index_only.
Proof.
  do 3 (split; [reflexivity|]).
  apply (script_no_rollback world_index_only indented_page); reflexivity.
Defined.



(** X16: when the first page may not be opened for writing the script
    raises before anything is changed, whether the page can be read or
    not: no file is written and nothing is printed. *)
Theorem script_unwritable_index (w : world) :
  writable w index_path = false -> script w = (None, w).
Proof.
  intro H; rewrite script_run, H.
  now destruct (read_result w index_path).
Qed.

Lemma script_unwritable_index_witness :
  writable world_read_only index_path = false /\
  script world_read_only = (None, world_read_only).
Proof.
  split; [reflexivity|].
  apply (script_unwritable_index world_read_only); reflexivity.
Defined.

Lemma written_text_no_cr_parts (a b : str) :
  ~ In cr (patch_index (universal_newlines a)) /\
  ~ In cr (patch_fremtidsplaner (universal_newlines b)).
Proof.
  split; [apply patch_index_no_cr | apply patch_fremtidsplaner_no_cr];
    apply universal_newlines_no_cr.
Qed.

(** X6: the text the script writes back has no carriage return, whatever
    the files held. *)
Theorem written_text_no_cr (a b : str) :
  ~ In cr (patch_index (universal_newlines a)) /\
  ~ In cr (patch_fremtidsplaner (universal_newlines b)).
Proof. apply written_text_no_cr_parts. Qed.

(** X7: reading normalises the line ends: the text read has no carriage
    return, and a text without carriage return is read as it is. *)
Theorem read_normalises_newlines (s : str) :
  ~ In cr (universal_newlines s) /\
  (existsb (N.eqb cr) s = false -> universal_newlines s = s).
Proof.
  split; [apply universal_newlines_no_cr|].
  intro H; now apply universal_newlines_plain, not_in_by_existsb.
Qed.

Lemma read_normalises_newlines_witness :
  existsb (N.eqb cr) plain_page = false /\
  universal_newlines plain_page = plain_page.
Proof.
  split; [reflexivity|].
  apply (read_normalises_newlines plain_page); reflexivity.
Defined.

(** X5: a second run on the result of a successful run returns as well,
    and leaves each page patched twice; the line is printed twice. *)
Theorem script_twice (w : world) (a b : str) :
  read_result w index_path = Some a ->
  read_result w fremtidsplaner_path = Some b ->
  fst (script w) = Some tt ->
  fst (script (snd (script w))) = Some tt /\
  files (snd (script (snd (script w)))) index_path
    = Some (patch_index (patch_index a)) /\
  files (snd (script (snd (script w)))) fremtidsplaner_path
    = Some (patch_fremtidsplaner (patch_fremtidsplaner b)) /\
  printed (snd (script (snd (script w))))
    = printed w ++ [done_line; done_line].
Proof.
  intros Ha Hb.
  destruct (read_result_some _ _ _ Ha) as (Ra & ca & _ & ->).
  destruct (read_result_some _ _ _ Hb) as (Rb & cb & _ & ->).
  destruct (written_text_no_cr_parts ca cb) as [HA HB].
  rewrite (script_run w), Ha, Hb.
  destruct (writable w index_path) eqn:Wa; [|discriminate].
  destruct (writable w fremtidsplaner_path) eqn:Wb; [|discriminate].
  intros _; cbn [snd].
  rewrite script_run; unfold read_result.
  cbn [files readable writable printed].
  rewrite Ra, Rb, Wa, Wb, paths_differ_sym, paths_differ, !String.eqb_refl.
  cbn [option_map].
  rewrite (universal_newlines_plain _ HA), (universal_newlines_plain _ HB).
  cbn [fst snd files printed].
  rewrite paths_differ_sym, !String.eqb_refl.
  repeat split; now rewrite <- app_assoc.
Qed.

Lemma script_twice_witness :
  read_result world_one index_path = Some indented_page /\
  read_result world_one fremtidsplaner_path = Some two_styles /\
  fst (script world_one) = Some tt /\
  fst (script (snd (script world_one))) = Some tt /\
  files (snd (script (snd (script world_one)))) index_path
    = Some (patch_index (patch_index indented_page)) /\
  files (snd (script (snd (script world_one)))) fremtidsplaner_path
    = Some (patch_fremtidsplaner (patch_fremtidsplaner two_styles)) /\
  printed (snd (script (snd (script world_one))))
    = printed world_one ++ [done_line; done_line].
Proof.
  do 3 (split; [reflexivity|]).
  apply (script_twice world_one indented_page two_styles); reflexivity.
Defined.

(** ** The steps, quantitatively *)

Lemma footer_marker_unbordered : no_overhang footer_marker footer_marker = true.
Proof. vm_compute; reflexivity. Qed.

Lemma footer_step_marker_count (s : str) :
  occurrences footer_marker (footer_step s) = occurrences footer_marker s.
Proof. apply footer_step_preserves; vm_compute; reflexivity. Qed.

Lemma footer_step_length (s : str) :
  length (footer_step s) =
  length s + length promo_block * occurrences footer_marker s.
Proof.
  assert (H := str_replace_length footer_marker new_section
                 footer_marker_nonempty footer_marker_unbordered s).
  fold (footer_step s) in H.
  rewrite new_section_split, length_app in H.
  lia.
Qed.

(** X8: the footer insertion puts one block in front of every indented
    marker: the number of markers stays, and the text grows by the length
    of the block for each of them. *)
Theorem footer_step_block_per_marker (s : str) :
  occurrences footer_marker (footer_step s) = occurrences footer_marker s /\
  length (footer_step s) =
  length s + length promo_block * occurrences footer_marker s.
Proof. split; [apply footer_step_marker_count | apply footer_step_length]. Qed.

(** X9: every further run inserts the blocks once more: after [n] runs the
    markers are as many as at the start and the text has grown by [n]
    blocks for each of them. *)
Theorem footer_step_repeated (n : nat) (s : str) :
  occurrences footer_marker (times n footer_step s)
    = occurrences footer_marker s /\
  length (times n footer_step s) =
  length s + n * (length promo_block * occurrences footer_marker s).
Proof.
  induction n as [|n [IHc IHl]]; [simpl; split; lia|].
  cbn [times]; split.
  - now rewrite footer_step_marker_count.
  - rewrite footer_step_length, IHc, IHl; lia.
Qed.

(** X10: the link-colour step shortens the text by one character for each
    occurrence of the old value. *)
Theorem link_step_length (s : str) :
  length (link_step s) + occurrences link_style_old s = length s.
Proof.
  assert (H := str_replace_length link_style_old link_style_new
                 link_style_old_nonempty).
  specialize (H ltac:(vm_compute; reflexivity) s).
  fold (link_step s) in H.
  replace (length link_style_old) with 118 in H by (vm_compute; reflexivity).
  replace (length link_style_new) with 117 in H by (vm_compute; reflexivity).
  lia.
Qed.

(** X11: the paragraph-colour step lengthens the text by 28 characters for
    each occurrence of the old tag. *)
Theorem para_step_length (s : str) :
  length (para_step s) = length s + 28 * occurrences para_old s.
Proof.
  assert (H := str_replace_length para_old para_new para_old_nonempty).
  specialize (H ltac:(vm_compute; reflexivity) s).
  fold (para_step s) in H.
  replace (length para_old) with 28 in H by (vm_compute; reflexivity).
  replace (length para_new) with 56 in H by (vm_compute; reflexivity).
  lia.
Qed.

(** X12: after the patch of the second page neither the old link style
    nor the old paragraph tag is left, whatever the page held: the last
    step cannot form the value the step before it removed. *)
Theorem patch_fremtidsplaner_cleans (c : str) :
  occurrences link_style_old (patch_fremtidsplaner c) = 0 /\
  occurrences para_old (patch_fremtidsplaner c) = 0.
Proof.
  unfold patch_fremtidsplaner; split.
  - set (t := bg_step (style_step c)).
    assert (H := str_replace_no_new_word link_style_old para_old para_new
                   para_old_nonempty).
    specialize (H ltac:(vm_compute; reflexivity)
                  ltac:(vm_compute; reflexivity) (link_step t)).
    fold (para_step (link_step t)) in H.
    assert (Z : occurrences link_style_old (link_step t) = 0).
    { unfold link_step; apply str_replace_none_left;
        [apply link_style_old_nonempty | |]; vm_compute; reflexivity. }
    lia.
  - unfold para_step at 1; apply str_replace_none_left;
      [apply para_old_nonempty | |]; vm_compute; reflexivity.
Qed.

(** ** The background block *)

Lemma bg_elements_pattern_items :
  bg_elements_pattern =
  [Lit bg_comment; SpaceStar; Lit bg_gradient; SpaceStar; Lit bg_orb_1;
   SpaceStar; Lit bg_orb_2; SpaceStar; Lit bg_orb_3].
Proof. vm_compute; reflexivity. Qed.

Lemma bg_elements_pattern_unambiguous :
  unambiguous bg_elements_pattern = true.
Proof. vm_compute; reflexivity. Qed.

Lemma bg_block_lang (ws1 ws2 ws3 ws4 : str) :
  forallb is_space ws1 = true -> forallb is_space ws2 = true ->
  forallb is_space ws3 = true -> forallb is_space ws4 = true ->
  lang bg_elements_pattern (bg_block ws1 ws2 ws3 ws4).
Proof.
  intros H1 H2 H3 H4; rewrite bg_elements_pattern_items; unfold bg_block.
  eexists; split; [reflexivity|].
  exists ws1; eexists; split; [reflexivity|]; split; [exact H1|].
  eexists; split; [reflexivity|].
  exists ws2; eexists; split; [reflexivity|]; split; [exact H2|].
  eexists; split; [reflexivity|].
  exists ws3; eexists; split; [reflexivity|]; split; [exact H3|].
  eexists; split; [reflexivity|].
  exists ws4; eexists; split; [reflexivity|]; split; [exact H4|].
  exists []; split; [now rewrite app_nil_r | reflexivity].
Qed.

Lemma bg_comment_nonempty : bg_comment <> [].
Proof. apply nonempty_by_length; vm_compute; lia. Qed.

(** X13: a background block is removed whatever white space, if any,
    separates its five elements, provided the comment it starts with does
    not occur before it; the text before the block is kept and the text
    behind it is treated the same way. *)
Theorem bg_step_removes_block (pre post ws1 ws2 ws3 ws4 : str) :
  str_find bg_comment pre = None ->
  forallb is_space ws1 = true -> forallb is_space ws2 = true ->
  forallb is_space ws3 = true -> forallb is_space ws4 = true ->
  bg_step (pre ++ bg_block ws1 ws2 ws3 ws4 ++ post) = pre ++ bg_step post.
Proof.
  intros Hpre H1 H2 H3 H4.
  assert (Hl := bg_block_lang ws1 ws2 ws3 ws4 H1 H2 H3 H4).
  assert (Hm := match_items_unambiguous bg_elements_pattern
                  bg_elements_pattern_unambiguous _ post Hl).
  unfold bg_step, re_sub.
  rewrite scan_skip_prefix.
  - rewrite scan_head_match; [reflexivity | | exact Hm].
    unfold bg_block; intro E; apply app_eq_nil in E as [E _].
    now apply bg_comment_nonempty.
  - intros j Hj.
    rewrite bg_elements_pattern_items, match_items_lit.
    unfold bg_block; rewrite <- !app_assoc.
    rewrite prefix_clear; [reflexivity | exact Hpre | | exact Hj].
    vm_compute; reflexivity.
Qed.

Lemma bg_step_removes_block_witness :
  str_find bg_comment (py "<body>") = None /\
  forallb is_space [10; 32; 32]%N = true /\
  forallb is_space [] = true /\
  forallb is_space [160]%N = true /\
  forallb is_space [9; 13; 10]%N = true /\
  bg_step (py "<body>"
           ++ bg_block [10; 32; 32]%N [] [160]%N [9; 13; 10]%N
           ++ py "<main>") = py "<body>" ++ bg_step (py "<main>").
Proof.
  repeat (split; [reflexivity|]).
  apply (bg_step_removes_block (py "<body>") (py "<main>")); reflexivity.
Defined.

(** ** The stylesheet, once more *)

Lemma new_style_parts :
  new_style = py "  " ++ style_open ++ style_body ++ style_close.
Proof. vm_compute; reflexivity. Qed.

(** The tag pair of the replacement is found as one match when no
    [<style>] stands before it. *)
Lemma re_sub_style_at_replacement (repl pre post : str) :
  str_find style_open pre = None ->
  re_sub style_pattern repl
    ((pre ++ py "  ") ++ (style_open ++ style_body ++ style_close) ++ post) =
  (pre ++ py "  ") ++ repl ++ re_sub style_pattern repl post.
Proof.
  intro Hpre.
  assert (Hpre2 : str_find style_open (pre ++ py "  ") = None).
  { apply str_find_app_none; [exact Hpre | reflexivity |].
    intros k Hk.
    assert (C := no_overhang_compat style_open (py "  ") k
                   ltac:(vm_compute; reflexivity) Hk).
    unfold compat in C; now apply orb_false_iff in C. }
  set (x := style_open ++ style_body ++ style_close).
  assert (Hm : match_items style_pattern (x ++ post) = Some (length x)).
  { unfold style_pattern, x.
    rewrite (match_pair style_open style_close), <- !app_assoc.
    rewrite is_prefix_app, skipn_length_app, str_find_first.
    - cbn [option_map]; f_equal; rewrite !length_app; lia.
    - intros j Hj.
      rewrite <- (app_nil_l post) at 1.
      change (style_close ++ [] ++ post) with (style_close ++ post).
      apply (no_start_in_pointwise style_close style_body style_close post j);
        [vm_compute; reflexivity | exact Hj]. }
  unfold re_sub.
  rewrite scan_skip_prefix.
  - rewrite scan_head_match; [reflexivity | | exact Hm].
    unfold x; intro E; apply app_eq_nil in E as [E _].
    now apply style_open_nonempty.
  - intros j Hj.
    unfold style_pattern, x.
    rewrite (match_pair style_open style_close), <- !app_assoc.
    rewrite prefix_clear; [reflexivity | exact Hpre2 | | exact Hj].
    vm_compute; reflexivity.
Qed.

(** X14: on a text that already carries the replacement stylesheet, with
    no [<style>] tag before it, the stylesheet step puts the replacement
    in place of the tag pair only: the two spaces the replacement starts
    with are doubled. *)
Theorem style_step_reindents (pre post : str) :
  str_find style_open pre = None ->
  style_step (pre ++ new_style ++ post) =
  pre ++ py "  " ++ new_style ++ style_step post.
Proof.
  intro Hpre; unfold style_step.
  assert (E : pre ++ new_style ++ post =
              (pre ++ py "  ")
              ++ (style_open ++ style_body ++ style_close) ++ post)
    by (rewrite new_style_parts, <- !app_assoc; reflexivity).
  rewrite E, (re_sub_style_at_replacement new_style pre post Hpre).
  now rewrite <- app_assoc.
Qed.

Lemma style_step_reindents_witness :
  str_find style_open (py "<head>") = None /\
  style_step (py "<head>" ++ new_style ++ py "</head>") =
  py "<head>" ++ py "  " ++ new_style ++ style_step (py "</head>").
Proof.
  split; [reflexivity|].
  apply (style_step_reindents (py "<head>") (py "</head>")); reflexivity.
Defined.

(** ** Nothing to do *)

(** X15: a page with no [<style>] pair, no background block, no old link
    style and no old paragraph tag passes through the patch of the second
    page unchanged. *)
Theorem patch_fremtidsplaner_nothing_to_do (c : str) :
  re_search (match_items style_pattern) c = None ->
  re_search (match_items bg_elements_pattern) c = None ->
  str_find link_style_old c = None ->
  str_find para_old c = None ->
  patch_fremtidsplaner c = c.
Proof.
  intros Hs Hb Hl Hp; unfold patch_fremtidsplaner.
  assert (Es : style_step c = c) by (apply scan_absent, re_search_none, Hs).
  assert (Eb : bg_step c = c) by (apply scan_absent, re_search_none, Hb).
  assert (El : link_step c = c).
  { unfold link_step; apply str_replace_absent;
      [apply link_style_old_nonempty | now apply str_find_occurrences]. }
  assert (Ep : para_step c = c).
  { unfold para_step; apply str_replace_absent;
      [apply para_old_nonempty | now apply str_find_occurrences]. }
  now rewrite Es, Eb, El, Ep.
Qed.

Lemma patch_fremtidsplaner_nothing_to_do_witness :
  re_search (match_items style_pattern) plain_page = None /\
  re_search (match_items bg_elements_pattern) plain_page = None /\
  str_find link_style_old plain_page = None /\
  str_find para_old plain_page = None /\
  patch_fremtidsplaner plain_page = plain_page.
Proof.
  repeat (split; [reflexivity|]).
  apply (patch_fremtidsplaner_nothing_to_do plain_page); reflexivity.
Defined.
